(** * SPSC ring buffer and sharded counters of the m05 concurrency lab

    Shallow embedding of [labs/m05_concurrency/src/spsc_ring_bench.cpp]
    (template [SpscRing<T, CapacityPow2>]) and of the sharded-counter
    benchmark [BM_ShardedCounters] of [counters_contention.cpp].

    [std::size_t] and [std::uint64_t] are 64-bit unsigned integers, modelled
    as [Z] with the wrap-around written out.  The slot array [buf] is a list
    read and written by index; an access outside the array is undefined
    behaviour in C++ and is modelled by the outcome [Undefined].  The atomic
    loads and stores of the indices are modelled by their sequential meaning:
    every call runs to completion before the next one starts. *)

From Stdlib Require Import ZArith Lia Bool.
From stdpp Require Import base list.

Open Scope Z_scope.

(** ** Machine integers *)

Definition size_t_bits : Z := 64.
Definition size_t_modulus : Z := 2 ^ size_t_bits.

(** Reduction of an arithmetic result to [std::size_t] / [std::uint64_t]. *)
Definition wrap (x : Z) : Z := x mod size_t_modulus.

(** ** Outcome of a call: a value, or undefined behaviour *)

Inductive outcome (A : Type) : Type :=
| Ok (a : A)
| Undefined.
Arguments Ok {A} a.
Arguments Undefined {A}.

#[global] Instance outcome_bind : MBind outcome :=
  fun A B (k : A -> outcome B) (m : outcome A) =>
    match m with
    | Ok a => k a
    | Undefined => Undefined
    end.

(** [a[i]] as an rvalue and [a[i] = x]; both undefined outside the array. *)
Definition load {A : Type} (a : list A) (i : Z) : outcome A :=
  if i <? 0 then Undefined
  else match a !! Z.to_nat i with
       | Some v => Ok v
       | None => Undefined
       end.

Definition store {A : Type} (a : list A) (i : Z) (x : A) : outcome (list A) :=
  if i <? 0 then Undefined
  else match a !! Z.to_nat i with
       | Some _ => Ok (<[Z.to_nat i := x]> a)
       | None => Undefined
       end.

(** ** The template's compile-time check

    [static_assert((CapacityPow2 & (CapacityPow2 - 1)) == 0, ...)], with
    [CapacityPow2 - 1] computed in [std::size_t]. *)
Definition static_assert_pow2 (CapacityPow2 : Z) : bool :=
  Z.land CapacityPow2 (wrap (CapacityPow2 - 1)) =? 0.

(** ** The ring buffer *)

Section SpscRing.
Context {T : Type}.
Variable CapacityPow2 : Z.

(** [head.v], [tail.v] and [buf]; the padding carries no data. *)
Record SpscRing : Type := mkRing {
  head : Z;
  tail : Z;
  buf : list T
}.

(** [static constexpr std::size_t mask = CapacityPow2 - 1;] *)
Definition mask : Z := wrap (CapacityPow2 - 1).

(** [Ring rb{}]: both indices zero, every slot value-initialised. *)
Definition fresh (zero : T) : SpscRing :=
  {| head := 0; tail := 0; buf := replicate (Z.to_nat CapacityPow2) zero |}.

Definition try_push (r : SpscRing) (x : T) : outcome (bool * SpscRing) :=
  let h := head r in
  let t := tail r in
  let next := Z.land (wrap (h + 1)) mask in
  if next =? t then Ok (false, r)
  else
    b ← store (buf r) h x;
    Ok (true, {| head := next; tail := t; buf := b |}).

(** [out] is passed by reference: the call returns its value afterwards. *)
Definition try_pop (r : SpscRing) (out : T) : outcome (bool * SpscRing * T) :=
  let t := tail r in
  let h := head r in
  if t =? h then Ok (false, r, out)
  else
    v ← load (buf r) t;
    let next := Z.land (wrap (t + 1)) mask in
    Ok (true, {| head := h; tail := next; buf := buf r |}, v).

(** The loop of [push_many], entered with the current value of [pushed].
    [fuel] bounds the number of iterations; [n - pushed] is always enough
    (lemma [push_many_loop_fuel]). *)
Fixpoint push_many_loop (fuel : nat) (r : SpscRing) (xs : list T)
    (n pushed : Z) : outcome (Z * SpscRing) :=
  match fuel with
  | O => Ok (pushed, r)
  | S fuel' =>
    if pushed <? n then
      x ← load xs pushed;
      '(ok, r') ← try_push r x;
      if (ok : bool) then push_many_loop fuel' r' xs n (wrap (pushed + 1))
      else Ok (pushed, r')
    else Ok (pushed, r)
  end.

Definition push_many (r : SpscRing) (xs : list T) (n : Z)
    : outcome (Z * SpscRing) :=
  push_many_loop (Z.to_nat n) r xs n 0.

(** The loop of [pop_many]; [xs] is the caller's output array, and
    [xs[popped]] is the reference handed to [try_pop]. *)
Fixpoint pop_many_loop (fuel : nat) (r : SpscRing) (xs : list T)
    (n popped : Z) : outcome (Z * SpscRing * list T) :=
  match fuel with
  | O => Ok (popped, r, xs)
  | S fuel' =>
    if popped <? n then
      out ← load xs popped;
      '(ok, r', out') ← try_pop r out;
      xs' ← store xs popped out';
      if (ok : bool) then pop_many_loop fuel' r' xs' n (wrap (popped + 1))
      else Ok (popped, r', xs')
    else Ok (popped, r, xs)
  end.

Definition pop_many (r : SpscRing) (xs : list T) (n : Z)
    : outcome (Z * SpscRing * list T) :=
  pop_many_loop (Z.to_nat n) r xs n 0.

End SpscRing.

Arguments SpscRing T : clear implicits.
Arguments mkRing {T} _ _ _.
Arguments head {T} _.
Arguments tail {T} _.
Arguments buf {T} _.

(** ** Sequences of calls on one buffer

    A producer and a consumer whose calls do not overlap in time perform a
    sequence of [try_push] and [try_pop] calls; each call leaves an event
    recording its argument and what it returned. *)

Section Calls.
Context {T : Type}.
Variable CapacityPow2 : Z.

Inductive call : Type :=
| Push (x : T)
| Pop (out : T).

Inductive event : Type :=
| Pushed (x : T) (ok : bool)
| Popped (ok : bool) (out : T).

Definition step (r : SpscRing T) (c : call) : outcome (event * SpscRing T) :=
  match c with
  | Push x =>
    '(ok, r') ← try_push CapacityPow2 r x; Ok (Pushed x ok, r')
  | Pop out =>
    '(ok, r', v) ← try_pop CapacityPow2 r out; Ok (Popped ok v, r')
  end.

Fixpoint run (r : SpscRing T) (cs : list call)
    : outcome (list event * SpscRing T) :=
  match cs with
  | [] => Ok ([], r)
  | c :: cs' =>
    '(e, r') ← step r c;
    '(es, r'') ← run r' cs';
    Ok (e :: es, r'')
  end.

(** The values handed to [try_push], accepted or not. *)
Fixpoint push_args (cs : list call) : list T :=
  match cs with
  | [] => []
  | Push x :: cs' => x :: push_args cs'
  | Pop _ :: cs' => push_args cs'
  end.

(** The values of the pushes that returned [true], in call order. *)
Fixpoint pushed_values (es : list event) : list T :=
  match es with
  | [] => []
  | Pushed x true :: es' => x :: pushed_values es'
  | _ :: es' => pushed_values es'
  end.

(** The values delivered by the pops that returned [true], in call order. *)
Fixpoint popped_values (es : list event) : list T :=
  match es with
  | [] => []
  | Popped true v :: es' => v :: popped_values es'
  | _ :: es' => popped_values es'
  end.

(** Pushed-but-not-popped elements. *)
Definition live (es : list event) : Z :=
  Z.of_nat (length (pushed_values es)) - Z.of_nat (length (popped_values es)).

Definition push_failed (e : event) : bool :=
  match e with
  | Pushed _ false => true
  | _ => false
  end.

Definition no_push_failed (es : list event) : bool :=
  forallb (fun e => negb (push_failed e)) es.

(** States reachable through the four operations of the interface; the
    arguments of each call are arbitrary. *)
Inductive reachable (zero : T) : SpscRing T -> Prop :=
| reach_fresh : reachable zero (fresh CapacityPow2 zero)
| reach_try_push r x ok r' :
    reachable zero r ->
    try_push CapacityPow2 r x = Ok (ok, r') ->
    reachable zero r'
| reach_try_pop r out ok r' v :
    reachable zero r ->
    try_pop CapacityPow2 r out = Ok (ok, r', v) ->
    reachable zero r'
| reach_push_many r xs n k r' :
    reachable zero r ->
    push_many CapacityPow2 r xs n = Ok (k, r') ->
    reachable zero r'
| reach_pop_many r xs n k r' xs' :
    reachable zero r ->
    pop_many CapacityPow2 r xs n = Ok (k, r', xs') ->
    reachable zero r'.

(** *** The batch operations as the specification words them

    "Repeatedly invoke the single-item operation up to a requested count,
    stopping at the first failure and returning the number actually
    transferred": [try_push] on each of the first [n] values in turn. *)
Fixpoint spec_push_each (r : SpscRing T) (vals : list T)
    : outcome (Z * SpscRing T) :=
  match vals with
  | [] => Ok (0, r)
  | x :: rest =>
    '(ok, r') ← try_push CapacityPow2 r x;
    if (ok : bool) then
      '(k, r'') ← spec_push_each r' rest; Ok (1 + k, r'')
    else Ok (0, r')
  end.

Definition spec_push_many (r : SpscRing T) (xs : list T) (n : Z)
    : outcome (Z * SpscRing T) :=
  spec_push_each r (take (Z.to_nat n) xs).

(** [try_pop] into each of the first [n] cells of the output array in
    turn; the cells after the last one visited keep their contents. *)
Fixpoint spec_pop_each (r : SpscRing T) (cells : list T)
    : outcome (Z * SpscRing T * list T) :=
  match cells with
  | [] => Ok (0, r, [])
  | out :: rest =>
    '(ok, r', v) ← try_pop CapacityPow2 r out;
    if (ok : bool) then
      '(k, r'', vs) ← spec_pop_each r' rest; Ok (1 + k, r'', v :: vs)
    else Ok (0, r', v :: rest)
  end.

Definition spec_pop_many (r : SpscRing T) (xs : list T) (n : Z)
    : outcome (Z * SpscRing T * list T) :=
  '(k, r', vs) ← spec_pop_each r (take (Z.to_nat n) xs);
  Ok (k, r', vs ++ drop (Z.to_nat n) xs).

(** *** Representation predicates *)

(** Both indices address a slot and the array has [CapacityPow2] slots. *)
Definition wf (r : SpscRing T) : Prop :=
  0 <= head r < CapacityPow2 /\
  0 <= tail r < CapacityPow2 /\
  Z.of_nat (length (buf r)) = CapacityPow2.

(** The slots from [tail] up to [head], cyclically, hold the queue [q],
    oldest element first. *)
Definition holds (r : SpscRing T) (q : list T) : Prop :=
  wf r /\
  Z.of_nat (length q) = (head r - tail r) mod CapacityPow2 /\
  forall (i : nat) (x : T),
    q !! i = Some x ->
    buf r !! Z.to_nat ((tail r + Z.of_nat i) mod CapacityPow2) = Some x.

End Calls.

Arguments call T : clear implicits.
Arguments event T : clear implicits.

(** A capacity the ring's mask arithmetic is meant for. *)
Definition is_pow2 (c : Z) : Prop := exists k, 0 <= k /\ c = 2 ^ k.

(** ** Scenarios on a ring of [uint32_t] values *)

(** Fill a four-slot ring, drain it, push once more: [head] wraps to slot
    zero while [tail] is at slot three. *)
Definition wrapped_calls : list (call Z) :=
  [Push 1; Push 2; Push 3; Pop 0; Pop 0; Pop 0; Push 4].

(** The scenario of the specification: push 1, 2, 3 and (refused) 4, pop
    twice, push 4, drain. *)
Definition spec_scenario : list (call Z) :=
  [Push 1; Push 2; Push 3; Push 4; Pop 0; Pop 0; Push 4; Pop 0; Pop 0].

(** The integers [0], [1], ..., [n - 1]. *)
Definition sequential (n : nat) : list Z := map Z.of_nat (seq 0 n).

(** Push and pop each of the given values, one at a time. *)
Definition one_at_a_time (vals : list Z) : list (call Z) :=
  flat_map (fun x => [Push x; Pop 0]) vals.

(** ** Sharded counters ([BM_ShardedCounters])

    Worker thread [t] runs [for (i = 0; i < iters_per_thread; ++i)
    shards[t].v += 1;].  Only thread [t] touches [shards[t]], so an execution
    is an interleaving of whole loop iterations. *)

Module Counters.

(** [struct alignas(CLS) PaddedCounter { std::uint64_t v{0}; char pad[..]; }] *)
Record PaddedCounter : Type := { v : Z }.

(** The vector of shards and, for each worker thread, the counter [i] of
    its loop. *)
Record bench : Type := {
  shards : list PaddedCounter;
  loop_i : list Z
}.

(** [std::vector<PaddedCounter> shards(threads)], every thread about to
    enter its loop. *)
Definition start (threads : Z) : bench :=
  {| shards := replicate (Z.to_nat threads) {| v := 0 |};
     loop_i := replicate (Z.to_nat threads) 0 |}.

(** One iteration of thread [t]'s loop.  [None]: there is no thread [t],
    or it has left its loop. *)
Definition iterate (iters_per_thread : Z) (t : nat) (s : bench)
    : option bench :=
  i ← loop_i s !! t;
  pc ← shards s !! t;
  if i <? iters_per_thread then
    Some {| shards := <[t := {| v := wrap (v pc + 1) |}]> (shards s);
            loop_i := <[t := wrap (i + 1)]> (loop_i s) |}
  else None.

(** The shard of a thread that has completed [i] iterations. *)
Definition shard_of (i : Z) : PaddedCounter := {| v := i |}.

(** An interleaving: which thread performs the next iteration. *)
Fixpoint interleave (iters_per_thread : Z) (sched : list nat) (s : bench)
    : option bench :=
  match sched with
  | [] => Some s
  | t :: sched' =>
    s' ← iterate iters_per_thread t s;
    interleave iters_per_thread sched' s'
  end.

(** [for (auto& th : ts) th.join();] returns once every loop is left. *)
Definition joined (iters_per_thread : Z) (s : bench) : bool :=
  forallb (fun i => negb (i <? iters_per_thread)) (loop_i s).

(** [for (const auto& pc : shards) sum += pc.v;] *)
Definition reduce (shards : list PaddedCounter) : Z :=
  fold_left (fun sum pc => wrap (sum + v pc)) shards 0.

(** The benchmark's own choice of iteration count. *)
Definition total_increments : Z := 64 * 1024 * 1024.
Definition iters_per_thread (threads : Z) : Z := total_increments / threads.

(** Thread 0 runs to the end of its loop, then thread 1, and so on. *)
Definition one_after_another (threads iters : Z) : list nat :=
  flat_map (fun t => replicate (Z.to_nat iters) t) (seq 0 (Z.to_nat threads)).

End Counters.

(** ** The relaxed-ordering ring of [BM_SPSC_Ring_Relaxed_Bug]

    [struct BadRing]: 4096 slots of [uint32_t]; the same statements as
    [SpscRing] with every memory order replaced by [relaxed]. *)

Module BadRing.

Record BadRing : Type := {
  head : Z;
  tail : Z;
  buf : list Z
}.

(** [static constexpr std::size_t mask = (1u << 12) - 1;] *)
Definition mask : Z := wrap (Z.shiftl 1 12 - 1).

(** [BadRing rb{}], with [uint32_t buf[1u << 12]]. *)
Definition fresh : BadRing :=
  {| head := 0; tail := 0; buf := replicate (Z.to_nat (Z.shiftl 1 12)) 0 |}.

Definition try_push (r : BadRing) (x : Z) : outcome (bool * BadRing) :=
  let h := head r in
  let t := tail r in
  let next := Z.land (wrap (h + 1)) mask in
  if next =? t then Ok (false, r)
  else
    b ← store (buf r) h x;
    Ok (true, {| head := next; tail := t; buf := b |}).

Definition try_pop (r : BadRing) (out : Z) : outcome (bool * BadRing * Z) :=
  let t := tail r in
  let h := head r in
  if t =? h then Ok (false, r, out)
  else
    v ← load (buf r) t;
    Ok (true, {| head := h;
                 tail := Z.land (wrap (t + 1)) mask;
                 buf := buf r |}, v).

(** The same fields, read as a [SpscRing<uint32_t, 4096>]. *)
Definition as_ring (r : BadRing) : SpscRing Z :=
  mkRing (head r) (tail r) (buf r).

End BadRing.

(** ** The producer and consumer threads

    [producer] and [consumer] of the throughput benchmark, on a ring of
    [uint32_t].  A thread is observed between its calls on the ring: one step
    of a thread runs it up to and including its next [try_push] / [try_pop],
    or up to its return.  The spin on [start_flag] precedes the first step;
    [std::this_thread::yield()] has no effect on the state. *)

(** [static_cast<uint32_t>(i)] *)
Definition uint32 (x : Z) : Z := x mod 2 ^ 32.

(** Where a thread stands: about to test the [while] condition, about to
    test the [for] condition with the given [k], or returned. *)
Inductive position : Type :=
| AtWhile
| AtFor (k : Z)
| Returned.

(** Control flow from a position to the next call on the ring: the value of
    [k] at that call, or [None] when the outer loop is left.  From [AtFor k]
    with [k < 8 && i < count] the body runs; otherwise the [for] loop ends
    and the [while] condition decides. *)
Definition next_call (count i : Z) (pos : position) : option Z :=
  match pos with
  | AtWhile => if i <? count then Some 0 else None
  | AtFor k =>
    if (k <? 8) && (i <? count) then Some k
    else if i <? count then Some 0 else None
  | Returned => None
  end.

Record producer_state : Type := {
  p_i : Z;
  p_at : position
}.

Record consumer_state : Type := {
  c_i : Z;
  c_sum : Z;
  c_val : Z;
  c_at : position
}.

(** One step of [producer(rb, count, start_flag)]: [++i] after an accepted
    push (then [++k]), [break] after a refused one. *)
Definition producer_step (CapacityPow2 count : Z) (p : producer_state)
    (r : SpscRing Z) : outcome (producer_state * SpscRing Z) :=
  match p_at p with
  | Returned => Ok (p, r)
  | _ =>
    match next_call count (p_i p) (p_at p) with
    | None => Ok ({| p_i := p_i p; p_at := Returned |}, r)
    | Some k =>
      '(ok, r') ← try_push CapacityPow2 r (uint32 (p_i p));
      if (ok : bool)
      then Ok ({| p_i := wrap (p_i p + 1); p_at := AtFor (k + 1) |}, r')
      else Ok ({| p_i := p_i p; p_at := AtWhile |}, r')
    end
  end.

(** One step of [consumer(rb, count, start_flag, checksum)]: [sum += val;
    ++i] after a delivered value; [*checksum = sum] on return. *)
Definition consumer_step (CapacityPow2 count : Z) (c : consumer_state)
    (r : SpscRing Z) (checksum : Z)
    : outcome (consumer_state * SpscRing Z * Z) :=
  match c_at c with
  | Returned => Ok (c, r, checksum)
  | _ =>
    match next_call count (c_i c) (c_at c) with
    | None =>
      Ok ({| c_i := c_i c; c_sum := c_sum c; c_val := c_val c;
             c_at := Returned |}, r, c_sum c)
    | Some k =>
      '(ok, r', v) ← try_pop CapacityPow2 r (c_val c);
      if (ok : bool)
      then Ok ({| c_i := wrap (c_i c + 1); c_sum := wrap (c_sum c + v);
                  c_val := v; c_at := AtFor (k + 1) |}, r', checksum)
      else Ok ({| c_i := c_i c; c_sum := c_sum c; c_val := v;
                  c_at := AtWhile |}, r', checksum)
    end
  end.

Inductive thread : Type :=
| Producer
| Consumer.

(** The benchmark's locals [rb] and [checksum] and its two threads. *)
Record system : Type := {
  sys_ring : SpscRing Z;
  sys_producer : producer_state;
  sys_consumer : consumer_state;
  sys_checksum : Z
}.

(** [Ring rb{}; uint64_t checksum = 0;] and both threads started. *)
Definition start_system (CapacityPow2 : Z) : system :=
  {| sys_ring := fresh CapacityPow2 0;
     sys_producer := {| p_i := 0; p_at := AtWhile |};
     sys_consumer := {| c_i := 0; c_sum := 0; c_val := 0; c_at := AtWhile |};
     sys_checksum := 0 |}.

Definition system_step (CapacityPow2 count : Z) (t : thread) (s : system)
    : outcome system :=
  match t with
  | Producer =>
    '(p, r) ← producer_step CapacityPow2 count (sys_producer s) (sys_ring s);
    Ok {| sys_ring := r; sys_producer := p;
          sys_consumer := sys_consumer s; sys_checksum := sys_checksum s |}
  | Consumer =>
    '(c, r, sum) ← consumer_step CapacityPow2 count (sys_consumer s)
                     (sys_ring s) (sys_checksum s);
    Ok {| sys_ring := r; sys_producer := sys_producer s;
          sys_consumer := c; sys_checksum := sum |}
  end.

(** An execution: which thread takes the next step. *)
Fixpoint run_threads (CapacityPow2 count : Z) (sched : list thread)
    (s : system) : outcome system :=
  match sched with
  | [] => Ok s
  | t :: sched' =>
    s' ← system_step CapacityPow2 count t s;
    run_threads CapacityPow2 count sched' s'
  end.

Definition has_returned (pos : position) : bool :=
  match pos with
  | Returned => true
  | _ => false
  end.

(** [tp.join(); tc.join();] have returned. *)
Definition both_joined (s : system) : bool :=
  has_returned (p_at (sys_producer s)) && has_returned (c_at (sys_consumer s)).

(** The sum of [static_cast<uint32_t>(i)] for [i] below [count], added up
    in [uint64_t]. *)
Definition checksum_of (count : Z) : Z :=
  fold_left (fun sum i => wrap (sum + uint32 i)) (seqZ 0 count) 0.

(** The values on their way from the producer to the consumer when the
    consumer has received [received] values and the producer has handed
    over [sent]. *)
Definition in_flight (received sent : Z) : list Z :=
  uint32 <$> seqZ received (sent - received).

(** What holds between the steps of an execution. *)
Definition system_inv (CapacityPow2 count : Z) (s : system) : Prop :=
  0 <= c_i (sys_consumer s) <= p_i (sys_producer s) /\
  p_i (sys_producer s) <= count /\
  holds CapacityPow2 (sys_ring s)
    (in_flight (c_i (sys_consumer s)) (p_i (sys_producer s))) /\
  c_sum (sys_consumer s) = checksum_of (c_i (sys_consumer s)) /\
  (p_at (sys_producer s) = Returned -> p_i (sys_producer s) = count) /\
  (c_at (sys_consumer s) = Returned ->
   c_i (sys_consumer s) = count /\
   sys_checksum s = c_sum (sys_consumer s)).

(** A bound on the steps the two threads still have to take: the values
    not yet sent, the values not yet received, and the returns. *)
Definition steps_left (count : Z) (s : system) : nat :=
  Z.to_nat (count - p_i (sys_producer s))
  + Z.to_nat (count - c_i (sys_consumer s))
  + (if has_returned (p_at (sys_producer s)) then 0 else 1)
  + (if has_returned (c_at (sys_consumer s)) then 0 else 1).

(** The producer pushes, then the consumer pops, [count] times over; then
    both return. *)
Definition in_lockstep (count : Z) : list thread :=
  concat (replicate (Z.to_nat count) [Producer; Consumer])
  ++ [Producer; Consumer].

(** ** The shared atomic counter ([BM_SharedAtomicCounter])

    Worker thread [t] runs [for (i = 0; i < iters_per_thread; ++i)
    shared.fetch_add(1, std::memory_order_relaxed);].  A [fetch_add] is one
    indivisible read-modify-write, so an execution is an interleaving of loop
    iterations. *)

(** The sum of a list of loop counters. *)
Definition sum_Z (l : list Z) : Z := foldr Z.add 0 l.

Module SharedCounter.

Record bench : Type := {
  shared : Z;
  loop_i : list Z
}.

(** [std::atomic<std::uint64_t> shared{0}], every thread about to enter its
    loop. *)
Definition start (threads : Z) : bench :=
  {| shared := 0; loop_i := replicate (Z.to_nat threads) 0 |}.

(** One iteration of thread [t]'s loop.  [None]: there is no thread [t], or
    it has left its loop. *)
Definition iterate (iters_per_thread : Z) (t : nat) (s : bench)
    : option bench :=
  i ← loop_i s !! t;
  if i <? iters_per_thread then
    Some {| shared := wrap (shared s + 1);
            loop_i := <[t := wrap (i + 1)]> (loop_i s) |}
  else None.

Fixpoint interleave (iters_per_thread : Z) (sched : list nat) (s : bench)
    : option bench :=
  match sched with
  | [] => Some s
  | t :: sched' =>
    s' ← iterate iters_per_thread t s;
    interleave iters_per_thread sched' s'
  end.

(** [for (auto& th : ts) th.join();] returns once every loop is left. *)
Definition joined (iters_per_thread : Z) (s : bench) : bool :=
  forallb (fun i => negb (i <? iters_per_thread)) (loop_i s).

End SharedCounter.

(** ** Tiled AXPY kernels ([concept_dispatch_bench.cpp])

    [x[i] = a[i] * x[i] + b[i]] for [i < n], in tiles.  The element type is
    [float] or [double]; its arithmetic is not modelled: [mul_add a x b]
    stands for the value of [a * x + b].  The three arrays do not overlap
    ([__restrict]). *)

Section Axpy.
Context {T : Type}.
Variable mul_add : T -> T -> T -> T.

(** [x[i] = a[i] * x[i] + b[i];] *)
Definition axpy_at (a b x : list T) (i : Z) : outcome (list T) :=
  ai ← load a i;
  xi ← load x i;
  bi ← load b i;
  store x i (mul_add ai xi bi).

(** [for (int k = 0; k < TILE; ++k) x[i + k] = ...], entered with the
    current [k]. *)
Fixpoint tile_body (fuel : nat) (a b x : list T) (i tile k : Z)
    : outcome (list T) :=
  match fuel with
  | O => Ok x
  | S fuel' =>
    if k <? tile then
      x' ← axpy_at a b x (wrap (i + k));
      tile_body fuel' a b x' i tile (k + 1)
    else Ok x
  end.

(** [for (; i + (TILE - 1) < n; i += TILE) { ... }]; returns the array and
    the final [i]. *)
Fixpoint full_tiles (fuel : nat) (a b x : list T) (n tile i : Z)
    : outcome (list T * Z) :=
  match fuel with
  | O => Ok (x, i)
  | S fuel' =>
    if wrap (i + (tile - 1)) <? n then
      x' ← tile_body (Z.to_nat tile) a b x i tile 0;
      full_tiles fuel' a b x' n tile (wrap (i + tile))
    else Ok (x, i)
  end.

(** [for (; i < n; ++i) x[i] = ...] *)
Fixpoint tail_elements (fuel : nat) (a b x : list T) (n i : Z)
    : outcome (list T) :=
  match fuel with
  | O => Ok x
  | S fuel' =>
    if i <? n then
      x' ← axpy_at a b x i;
      tail_elements fuel' a b x' n (wrap (i + 1))
    else Ok x
  end.

(** The two loops shared by [axpy_tile<TILE>] and [axpy_runtime_tile]; no
    loop runs more than [n] times. *)
Definition axpy_loops (a b x : list T) (n tile : Z) : outcome (list T) :=
  '(x1, i) ← full_tiles (Z.to_nat n) a b x n tile 0;
  tail_elements (Z.to_nat n) a b x1 n i.

(** [axpy_tile<TILE>(a, b, x, n)], with [static_assert(TILE > 0)]. *)
Definition axpy_tile (TILE : Z) (a b x : list T) (n : Z) : outcome (list T) :=
  axpy_loops a b x n TILE.

(** [axpy_runtime_tile(a, b, x, n, tile)]: [if (tile <= 0) tile = 1;]. *)
Definition axpy_runtime_tile (a b x : list T) (n tile : Z)
    : outcome (list T) :=
  let tile := if tile <=? 0 then 1 else tile in
  axpy_loops a b x n tile.

(** [axpy_compile_time_dispatch]: the [switch] over [wanted_tile]. *)
Definition axpy_compile_time_dispatch (a b x : list T) (n wanted_tile : Z)
    : outcome (list T) :=
  if wanted_tile =? 8 then axpy_tile 8 a b x n
  else if wanted_tile =? 16 then axpy_tile 16 a b x n
  else if wanted_tile =? 32 then axpy_tile 32 a b x n
  else axpy_tile 8 a b x n.

(** "x = a * x + b" on the first [n] elements, the others untouched. *)
Definition axpy_reference (a b x : list T) (n : nat) : list T :=
  zip_with (fun ab xi => mul_add ab.1 xi ab.2) (zip (take n a) (take n b))
    (take n x)
  ++ drop n x.

End Axpy.

(** * Properties *)

(** ** Index arithmetic *)

Lemma wrap_small x : 0 <= x < size_t_modulus -> wrap x = x.
Proof. intros H. unfold wrap. apply Z.mod_small, H. Qed.

Lemma size_t_modulus_eq : size_t_modulus = 18446744073709551616.
Proof. reflexivity. Qed.

Lemma pow2_pos k : 0 <= k -> 0 < 2 ^ k.
Proof. intros. apply Z.pow_pos_nonneg; lia. Qed.

(** A power of two passes the compile-time check. *)
Lemma static_assert_pow2_complete c :
  c < size_t_modulus -> is_pow2 c -> static_assert_pow2 c = true.
Proof.
  intros Hlt (k & Hk & ->). unfold static_assert_pow2.
  pose proof (pow2_pos k Hk).
  rewrite wrap_small by lia.
  replace (2 ^ k - 1) with (Z.ones k) by (rewrite Z.ones_equiv; lia).
  rewrite Z.land_ones by lia. rewrite Z.mod_same by lia. reflexivity.
Qed.

(** A nonzero capacity that passes the check is a power of two. *)
Lemma static_assert_pow2_sound c :
  0 < c < size_t_modulus -> static_assert_pow2 c = true -> is_pow2 c.
Proof.
  intros Hc Hchk. unfold static_assert_pow2 in Hchk.
  rewrite wrap_small in Hchk by lia. apply Z.eqb_eq in Hchk.
  destruct (Z.log2_spec_alt c) as (rest & Hsplit & Hrest); [lia|].
  exists (Z.log2 c). split; [apply Z.log2_nonneg|].
  destruct (Z.eq_dec rest 0) as [->|Hne]; [lia|].
  exfalso.
  assert (Hlog : Z.log2 (c - 1) = Z.log2 c).
  { apply Z.log2_unique' with (c := rest - 1);
      [apply Z.log2_nonneg | lia | lia]. }
  assert (Hbit : Z.testbit (Z.land c (c - 1)) (Z.log2 c) = true).
  { rewrite Z.land_spec, Z.bit_log2 by lia. simpl.
    rewrite <- Hlog. apply Z.bit_log2. lia. }
  rewrite Hchk in Hbit. rewrite Z.bits_0 in Hbit. discriminate.
Qed.

(** Masking with [CapacityPow2 - 1] is reduction modulo the capacity. *)
Lemma land_mask c x :
  0 < c < size_t_modulus -> is_pow2 c -> 0 <= x < size_t_modulus ->
  Z.land (wrap x) (mask c) = x mod c.
Proof.
  intros Hc (k & Hk & ->) Hx. unfold mask.
  rewrite !wrap_small by lia.
  replace (2 ^ k - 1) with (Z.ones k) by (rewrite Z.ones_equiv; lia).
  apply Z.land_ones. lia.
Qed.

(** The successor of an index, as both operations compute it. *)
Lemma next_index c i :
  0 < c < size_t_modulus -> is_pow2 c -> 0 <= i < c ->
  Z.land (wrap (i + 1)) (mask c) = (i + 1) mod c.
Proof. intros Hc Hp Hi. apply land_mask; [done | done | lia]. Qed.

Lemma mod_step c i :
  0 <= i < c -> (i + 1) mod c = if i + 1 =? c then 0 else i + 1.
Proof.
  intros Hi. destruct (Z.eqb_spec (i + 1) c) as [<-|Hne].
  - apply Z.mod_same. lia.
  - apply Z.mod_small. lia.
Qed.

Lemma mod_diff c a b :
  0 <= a < c -> 0 <= b < c ->
  (a - b) mod c = if a <? b then a - b + c else a - b.
Proof.
  intros Ha Hb. destruct (Z.ltb_spec a b).
  - symmetry. apply Z.mod_unique with (q := -1); lia.
  - apply Z.mod_small. lia.
Qed.

Lemma mod_sum c a b :
  0 <= a < c -> 0 <= b < c ->
  (a + b) mod c = if a + b <? c then a + b else a + b - c.
Proof.
  intros Ha Hb. destruct (Z.ltb_spec (a + b) c).
  - apply Z.mod_small. lia.
  - symmetry. apply Z.mod_unique with (q := 1); lia.
Qed.

Section RingProperties.
Context {T : Type}.
Variable CapacityPow2 : Z.
Hypothesis Hcap : 0 < CapacityPow2 < size_t_modulus.
Hypothesis Hassert : static_assert_pow2 CapacityPow2 = true.

(** ** Single-item operations *)

Lemma capacity_pow2 : is_pow2 CapacityPow2.
Proof. apply static_assert_pow2_sound; assumption. Qed.

Lemma store_in_range (a : list T) (i : Z) (x : T) :
  0 <= i < Z.of_nat (length a) ->
  store a i x = Ok (<[Z.to_nat i := x]> a).
Proof.
  intros Hi. unfold store.
  destruct (Z.ltb_spec i 0); [lia|].
  destruct (lookup_lt_is_Some_2 a (Z.to_nat i)) as [v ->]; [lia|done].
Qed.

Lemma load_in_range (a : list T) (i : Z) :
  0 <= i < Z.of_nat (length a) ->
  exists v, a !! Z.to_nat i = Some v /\ load a i = Ok v.
Proof.
  intros Hi. unfold load.
  destruct (Z.ltb_spec i 0); [lia|].
  destruct (lookup_lt_is_Some_2 a (Z.to_nat i)) as [v Hv]; [lia|].
  exists v. by rewrite Hv.
Qed.

Lemma try_push_full (r : SpscRing T) (x : T) :
  wf CapacityPow2 r -> (head r + 1) mod CapacityPow2 = tail r ->
  try_push CapacityPow2 r x = Ok (false, r).
Proof.
  intros (Hh & _ & _) Hfull. unfold try_push.
  rewrite next_index by auto using capacity_pow2.
  rewrite Hfull, Z.eqb_refl. reflexivity.
Qed.

Lemma try_push_room (r : SpscRing T) (x : T) :
  wf CapacityPow2 r -> (head r + 1) mod CapacityPow2 <> tail r ->
  try_push CapacityPow2 r x =
    Ok (true, {| head := (head r + 1) mod CapacityPow2;
                 tail := tail r;
                 buf := <[Z.to_nat (head r) := x]> (buf r) |}).
Proof.
  intros (Hh & _ & Hlen) Hroom. unfold try_push.
  rewrite next_index by auto using capacity_pow2.
  destruct (Z.eqb_spec ((head r + 1) mod CapacityPow2) (tail r)); [done|].
  rewrite store_in_range by lia. reflexivity.
Qed.

Lemma try_pop_empty (r : SpscRing T) (out : T) :
  tail r = head r -> try_pop CapacityPow2 r out = Ok (false, r, out).
Proof.
  intros Hempty. unfold try_pop.
  rewrite Hempty, Z.eqb_refl. reflexivity.
Qed.

Lemma try_pop_item (r : SpscRing T) (out : T) :
  wf CapacityPow2 r -> tail r <> head r ->
  exists v,
    buf r !! Z.to_nat (tail r) = Some v /\
    try_pop CapacityPow2 r out =
      Ok (true, {| head := head r;
                   tail := (tail r + 1) mod CapacityPow2;
                   buf := buf r |}, v).
Proof.
  intros (_ & Ht & Hlen) Hne. unfold try_pop.
  destruct (Z.eqb_spec (tail r) (head r)); [done|].
  destruct (load_in_range (buf r) (tail r)) as (v & Hv & ->); [lia|].
  exists v. split; [done|]. simpl.
  rewrite next_index by auto using capacity_pow2. reflexivity.
Qed.

(** C1: when [(head + 1) mod Capacity <> tail], [try_push] writes the
    value into slot [head] (leaving the other slots as they were), advances
    [head] to [(head + 1) mod Capacity] and returns [true]; and it returns
    [false] exactly when [(head + 1) mod Capacity = tail]. *)
Theorem try_push_correct (r : SpscRing T) (x : T) :
  wf CapacityPow2 r ->
  ((head r + 1) mod CapacityPow2 <> tail r ->
     try_push CapacityPow2 r x =
       Ok (true, {| head := (head r + 1) mod CapacityPow2;
                    tail := tail r;
                    buf := <[Z.to_nat (head r) := x]> (buf r) |}) /\
     <[Z.to_nat (head r) := x]> (buf r) !! Z.to_nat (head r) = Some x) /\
  ((exists r', try_push CapacityPow2 r x = Ok (false, r')) <->
     (head r + 1) mod CapacityPow2 = tail r).
Proof.
  intros Hwf. split.
  - intros Hroom. split; [by apply try_push_room|].
    destruct Hwf as (Hh & _ & Hlen).
    apply list_lookup_insert_eq. lia.
  - split.
    + intros (r' & Hret).
      destruct (Z.eq_dec ((head r + 1) mod CapacityPow2) (tail r));
        [done|].
      rewrite try_push_room in Hret by done. discriminate.
    + intros Hfull. exists r. by apply try_push_full.
Qed.

(** C2: when [tail <> head], [try_pop] copies the payload of slot [tail]
    into [out], advances [tail] to [(tail + 1) mod Capacity] and returns
    [true]; when [tail = head] it returns [false]. *)
Theorem try_pop_correct (r : SpscRing T) (out : T) :
  wf CapacityPow2 r ->
  (tail r <> head r ->
     exists v,
       buf r !! Z.to_nat (tail r) = Some v /\
       try_pop CapacityPow2 r out =
         Ok (true, {| head := head r;
                      tail := (tail r + 1) mod CapacityPow2;
                      buf := buf r |}, v)) /\
  (tail r = head r ->
     exists r' out', try_pop CapacityPow2 r out = Ok (false, r', out')).
Proof.
  intros Hwf. split.
  - intros Hne. by apply try_pop_item.
  - intros Hempty. exists r, out. by apply try_pop_empty.
Qed.

(** C5: [try_push] on a full buffer and [try_pop] on an empty buffer
    return [false] (the call completes: it yields a result) and leave
    [head], [tail] and every slot as they were; [out] is not written. *)
Theorem failed_call_changes_nothing (r : SpscRing T) (x out : T) :
  wf CapacityPow2 r ->
  ((head r + 1) mod CapacityPow2 = tail r -> try_push CapacityPow2 r x = Ok (false, r)) /\
  (tail r = head r -> try_pop CapacityPow2 r out = Ok (false, r, out)).
Proof.
  intros Hwf. split.
  - by apply try_push_full.
  - by apply try_pop_empty.
Qed.


(** ** The indices stay inside the array *)

Lemma wf_fresh (zero : T) : wf CapacityPow2 (fresh CapacityPow2 zero).
Proof.
  unfold wf, fresh. simpl. rewrite length_replicate. lia.
Qed.

Lemma try_push_cases (r : SpscRing T) (x : T) :
  wf CapacityPow2 r ->
  try_push CapacityPow2 r x = Ok (false, r) /\
    (head r + 1) mod CapacityPow2 = tail r
  \/
  try_push CapacityPow2 r x =
    Ok (true, {| head := (head r + 1) mod CapacityPow2;
                 tail := tail r;
                 buf := <[Z.to_nat (head r) := x]> (buf r) |}) /\
    (head r + 1) mod CapacityPow2 <> tail r.
Proof.
  intros Hwf.
  destruct (Z.eq_dec ((head r + 1) mod CapacityPow2) (tail r)).
  - left. split; [by apply try_push_full | done].
  - right. split; [by apply try_push_room | done].
Qed.

Lemma try_pop_cases (r : SpscRing T) (out : T) :
  wf CapacityPow2 r ->
  try_pop CapacityPow2 r out = Ok (false, r, out) /\ tail r = head r
  \/
  exists v,
    buf r !! Z.to_nat (tail r) = Some v /\
    try_pop CapacityPow2 r out =
      Ok (true, {| head := head r;
                   tail := (tail r + 1) mod CapacityPow2;
                   buf := buf r |}, v) /\
    tail r <> head r.
Proof.
  intros Hwf.
  destruct (Z.eq_dec (tail r) (head r)).
  - left. split; [by apply try_pop_empty | done].
  - right. destruct (try_pop_item r out) as (v & Hv & Hpop); [done..|].
    by exists v.
Qed.

Lemma try_push_wf (r : SpscRing T) (x : T) ok r' :
  wf CapacityPow2 r -> try_push CapacityPow2 r x = Ok (ok, r') ->
  wf CapacityPow2 r'.
Proof.
  intros Hwf Hcall.
  destruct (try_push_cases r x Hwf) as [[E _]|[E _]];
    rewrite E in Hcall; inversion Hcall; subst; [done|].
  destruct Hwf as (Hh & Ht & Hlen). unfold wf. simpl.
  rewrite length_insert.
  pose proof (Z.mod_pos_bound (head r + 1) CapacityPow2). lia.
Qed.

Lemma try_pop_wf (r : SpscRing T) (out : T) ok r' v :
  wf CapacityPow2 r -> try_pop CapacityPow2 r out = Ok (ok, r', v) ->
  wf CapacityPow2 r'.
Proof.
  intros Hwf Hcall.
  destruct (try_pop_cases r out Hwf) as [[E _]|(w & _ & E & _)];
    rewrite E in Hcall; inversion Hcall; subst; [done|].
  destruct Hwf as (Hh & Ht & Hlen). unfold wf. simpl.
  pose proof (Z.mod_pos_bound (tail r + 1) CapacityPow2). lia.
Qed.

Lemma push_many_loop_wf fuel : forall (r : SpscRing T) xs n pushed k r',
  wf CapacityPow2 r ->
  push_many_loop CapacityPow2 fuel r xs n pushed = Ok (k, r') ->
  wf CapacityPow2 r'.
Proof.
  induction fuel as [|fuel IH]; intros r xs n pushed k r' Hwf Hloop;
    simpl in Hloop.
  - by inversion Hloop; subst.
  - destruct (pushed <? n); [|by inversion Hloop; subst].
    destruct (load xs pushed) as [x|]; [|done]. simpl in Hloop.
    destruct (try_push CapacityPow2 r x) as [[ok r1]|] eqn:Hpush; [|done].
    simpl in Hloop. apply try_push_wf in Hpush; [|done].
    destruct ok.
    + by eapply IH.
    + by inversion Hloop; subst.
Qed.

Lemma pop_many_loop_wf fuel : forall (r : SpscRing T) xs n popped k r' xs',
  wf CapacityPow2 r ->
  pop_many_loop CapacityPow2 fuel r xs n popped = Ok (k, r', xs') ->
  wf CapacityPow2 r'.
Proof.
  induction fuel as [|fuel IH]; intros r xs n popped k r' xs' Hwf Hloop;
    simpl in Hloop.
  - by inversion Hloop; subst.
  - destruct (popped <? n); [|by inversion Hloop; subst].
    destruct (load xs popped) as [out|]; [|done]. simpl in Hloop.
    destruct (try_pop CapacityPow2 r out) as [[[ok r1] v]|] eqn:Hpop;
      [|done].
    simpl in Hloop. apply try_pop_wf in Hpop; [|done].
    destruct (store xs popped v) as [xs1|]; [|done]. simpl in Hloop.
    destruct ok.
    + by eapply IH.
    + by inversion Hloop; subst.
Qed.

Lemma reachable_wf (zero : T) (r : SpscRing T) :
  reachable CapacityPow2 zero r -> wf CapacityPow2 r.
Proof.
  induction 1 as [|r x ok r' _ IH Hcall|r out ok r' v _ IH Hcall
                  |r xs n k r' _ IH Hcall|r xs n k r' xs' _ IH Hcall].
  - apply wf_fresh.
  - by eapply try_push_wf.
  - by eapply try_pop_wf.
  - by eapply push_many_loop_wf.
  - by eapply pop_many_loop_wf.
Qed.

(** C10: every state reachable from construction through [try_push],
    [try_pop], [push_many] and [pop_many] has both stored indices below
    the capacity; a successful single-item call stores the masked value
    [(index + 1) & (Capacity - 1)]. *)
Theorem indices_below_capacity (zero : T) (r : SpscRing T) :
  reachable CapacityPow2 zero r ->
  (0 <= head r < CapacityPow2 /\ 0 <= tail r < CapacityPow2) /\
  (forall x r', try_push CapacityPow2 r x = Ok (true, r') ->
     head r' = Z.land (wrap (head r + 1)) (CapacityPow2 - 1)) /\
  (forall out r' v, try_pop CapacityPow2 r out = Ok (true, r', v) ->
     tail r' = Z.land (wrap (tail r + 1)) (CapacityPow2 - 1)).
Proof.
  intros Hreach. pose proof (reachable_wf zero r Hreach) as Hwf.
  assert (Hmask : mask CapacityPow2 = CapacityPow2 - 1).
  { unfold mask. apply wrap_small. lia. }
  split; [destruct Hwf as (? & ? & _); done|]. split.
  - intros x r' Hcall.
    destruct (try_push_cases r x Hwf) as [[E _]|[E _]];
      rewrite E in Hcall; inversion Hcall; subst. simpl.
    rewrite <- Hmask. symmetry. apply next_index; auto using capacity_pow2.
    by destruct Hwf.
  - intros out r' v Hcall.
    destruct (try_pop_cases r out Hwf) as [[E _]|(w & _ & E & _)];
      rewrite E in Hcall; inversion Hcall; subst. simpl.
    rewrite <- Hmask. symmetry. apply next_index; auto using capacity_pow2.
    by destruct Hwf as (_ & ? & _).
Qed.
(** ** The slots between [tail] and [head] are a queue *)

Lemma holds_fresh (zero : T) : holds CapacityPow2 (fresh CapacityPow2 zero) [].
Proof.
  split; [apply wf_fresh|]. split.
  - simpl. by rewrite Z.mod_0_l by lia.
  - intros i x Hi. by rewrite lookup_nil in Hi.
Qed.

Lemma holds_length (r : SpscRing T) (q : list T) :
  holds CapacityPow2 r q -> Z.of_nat (length q) <= CapacityPow2 - 1.
Proof.
  intros (_ & Hlen & _).
  pose proof (Z.mod_pos_bound (head r - tail r) CapacityPow2). lia.
Qed.

Lemma try_push_holds (r : SpscRing T) (q : list T) (x : T) ok r' :
  holds CapacityPow2 r q ->
  try_push CapacityPow2 r x = Ok (ok, r') ->
  holds CapacityPow2 r' (if ok then q ++ [x] else q).
Proof.
  intros Hq Hcall. pose proof Hq as (Hwf & Hlen & Hslots).
  pose proof (try_push_wf _ _ _ _ Hwf Hcall) as Hwf'.
  destruct (try_push_cases r x Hwf) as [[E _]|[E Hroom]];
    rewrite E in Hcall; inversion Hcall; subst; [done|].
  destruct Hwf as (Hh & Ht & Hbuf).
  rewrite mod_step in Hroom by done.
  rewrite mod_diff in Hlen by done.
  split; [done|]. simpl. split.
  - rewrite length_app. simpl.
    rewrite mod_step by done.
    destruct (Z.eqb_spec (head r + 1) CapacityPow2);
      rewrite mod_diff by lia;
      destruct (Z.ltb_spec (head r) (tail r));
      repeat match goal with |- context [?a <? ?b] =>
               destruct (Z.ltb_spec a b) end; lia.
  - intros i y Hi.
    assert (Hi' : (i < length q + 1)%nat).
    { apply lookup_lt_Some in Hi. by rewrite length_app in Hi. }
    assert (Hslot : (tail r + Z.of_nat i) mod CapacityPow2 =
                    if tail r + Z.of_nat i <? CapacityPow2
                    then tail r + Z.of_nat i
                    else tail r + Z.of_nat i - CapacityPow2).
    { apply mod_sum; [done|].
      destruct (Z.ltb_spec (head r) (tail r)); lia. }
    destruct (decide (i < length q)%nat) as [Hlt|Hge].
    + rewrite lookup_app_l in Hi by done.
      rewrite list_lookup_insert_ne; [by apply Hslots|].
      rewrite Hslot.
      destruct (Z.ltb_spec (head r) (tail r));
        destruct (Z.ltb_spec (tail r + Z.of_nat i) CapacityPow2); lia.
    + assert (i = length q) as -> by lia.
      rewrite lookup_app_r, Nat.sub_diag in Hi by lia.
      simpl in Hi. injection Hi as <-.
      replace ((tail r + Z.of_nat (length q)) mod CapacityPow2)
        with (head r).
      * apply list_lookup_insert_eq. lia.
      * rewrite Hslot.
        destruct (Z.ltb_spec (head r) (tail r));
          destruct (Z.ltb_spec (tail r + Z.of_nat (length q)) CapacityPow2);
          lia.
Qed.

Lemma try_pop_holds (r : SpscRing T) (q : list T) (out : T) ok r' v :
  holds CapacityPow2 r q ->
  try_pop CapacityPow2 r out = Ok (ok, r', v) ->
  match q with
  | [] => ok = false /\ r' = r /\ v = out
  | y :: q' => ok = true /\ v = y /\ holds CapacityPow2 r' q'
  end.
Proof.
  intros Hq Hcall. pose proof Hq as (Hwf & Hlen & Hslots).
  pose proof (try_pop_wf _ _ _ _ _ Hwf Hcall) as Hwf'.
  destruct (try_pop_cases r out) as [[E He]|(w & Hw & E & Hne)];
    [done| |]; rewrite E in Hcall; inversion Hcall; subst;
    destruct Hwf as (Hh & Ht & Hbuf);
    rewrite mod_diff in Hlen by done.
  - destruct q as [|y q']; [done|]. simpl in Hlen.
    destruct (Z.ltb_spec (head r') (tail r')); lia.
  - destruct q as [|y q'].
    { simpl in Hlen. destruct (Z.ltb_spec (head r) (tail r)); lia. }
    split; [done|]. split.
    + specialize (Hslots 0%nat y eq_refl).
      rewrite Z.add_0_r, Z.mod_small in Hslots by lia. congruence.
    + split; [done|]. simpl in *. split.
      * rewrite mod_step by done.
        destruct (Z.eqb_spec (tail r + 1) CapacityPow2);
          rewrite mod_diff by lia;
          destruct (Z.ltb_spec (head r) (tail r));
          repeat match goal with |- context [?a <? ?b] =>
                   destruct (Z.ltb_spec a b) end; lia.
      * intros i x Hi.
        rewrite Z.add_mod_idemp_l by lia.
        replace (tail r + 1 + Z.of_nat i) with (tail r + Z.of_nat (S i))
          by lia.
        by apply Hslots.
Qed.

(** ** Sequences of calls *)

Lemma step_holds (r : SpscRing T) (q : list T) (c : call T) :
  holds CapacityPow2 r q ->
  exists e r' q',
    step CapacityPow2 r c = Ok (e, r') /\
    holds CapacityPow2 r' q' /\
    q ++ pushed_values [e] = popped_values [e] ++ q'.
Proof.
  intros Hq. pose proof Hq as (Hwf & _). destruct c as [x|out]; simpl.
  - destruct (try_push_cases r x Hwf) as [[E _]|[E _]];
      pose proof (try_push_holds r q x _ _ Hq E) as Hq';
      rewrite E; simpl; eexists _, _, _; (split; [reflexivity|]);
      (split; [exact Hq'|]); simpl; by rewrite ?app_nil_r.
  - destruct (try_pop_cases r out Hwf) as [[E _]|(v & _ & E & _)];
      pose proof (try_pop_holds r q out _ _ _ Hq E) as Hq';
      rewrite E; simpl; destruct q as [|y q']; destruct Hq' as (? & ? & ?);
      try discriminate.
    + subst. eexists _, _, _. split; [reflexivity|]. by split.
    + subst. eexists _, _, _. split; [reflexivity|].
      split; [eassumption|]. simpl. by rewrite app_nil_r.
Qed.

Lemma pushed_values_cons (e : event T) (es : list (event T)) :
  pushed_values (e :: es) = pushed_values [e] ++ pushed_values es.
Proof. by destruct e as [x [|]|[|] v]. Qed.

Lemma popped_values_cons (e : event T) (es : list (event T)) :
  popped_values (e :: es) = popped_values [e] ++ popped_values es.
Proof. by destruct e as [x [|]|[|] v]. Qed.

(** Every sequence of calls runs to completion, and the values accepted so
    far are the values delivered so far followed by the queue contents. *)
Lemma run_holds (cs : list (call T)) : forall (r : SpscRing T) (q : list T),
  holds CapacityPow2 r q ->
  exists es r' q',
    run CapacityPow2 r cs = Ok (es, r') /\
    holds CapacityPow2 r' q' /\
    q ++ pushed_values es = popped_values es ++ q'.
Proof.
  induction cs as [|c cs IH]; intros r q Hq.
  - exists [], r, q. simpl. by rewrite app_nil_r.
  - destruct (step_holds r q c Hq) as (e & r1 & q1 & Hstep & Hq1 & Heq1).
    destruct (IH r1 q1 Hq1) as (es & r2 & q2 & Hrun & Hq2 & Heq2).
    exists (e :: es), r2, q2. split.
    + simpl run. rewrite Hstep. simpl. rewrite Hrun. reflexivity.
    + split; [done|].
      rewrite pushed_values_cons, popped_values_cons.
      rewrite app_assoc, Heq1, <- !app_assoc. by rewrite Heq2.
Qed.

Lemma run_from_fresh (zero : T) (cs : list (call T)) :
  exists es r q,
    run CapacityPow2 (fresh CapacityPow2 zero) cs = Ok (es, r) /\
    holds CapacityPow2 r q /\
    pushed_values es = popped_values es ++ q.
Proof.
  destruct (run_holds cs _ [] (holds_fresh zero))
    as (es & r & q & Hrun & Hq & Heq).
  by exists es, r, q.
Qed.

(** When no push was refused, the accepted values are the pushed values. *)
Lemma run_no_push_failed (cs : list (call T)) :
  forall (r : SpscRing T) es r',
    run CapacityPow2 r cs = Ok (es, r') ->
    no_push_failed es = true ->
    pushed_values es = push_args cs.
Proof.
  induction cs as [|c cs IH]; intros r es r' Hrun Hok; simpl in Hrun.
  - by inversion Hrun.
  - destruct (step CapacityPow2 r c) as [[e r1]|] eqn:Hstep; [|done].
    simpl in Hrun.
    destruct (run CapacityPow2 r1 cs) as [[es1 r2]|] eqn:Hrest; [|done].
    simpl in Hrun. injection Hrun as <- <-.
    simpl in Hok. apply andb_true_iff in Hok as [He Hes].
    specialize (IH _ _ _ Hrest Hes).
    destruct c as [x|out]; simpl in Hstep.
    + destruct (try_push CapacityPow2 r x) as [[ok r3]|]; [|done].
      simpl in Hstep. injection Hstep as <- <-.
      destruct ok; [|done]. simpl. by rewrite IH.
    + destruct (try_pop CapacityPow2 r out) as [[[ok r3] v]|]; [|done].
      simpl in Hstep. injection Hstep as <- <-.
      destruct ok; simpl; by rewrite IH.
Qed.

(** C3, as amended: after any sequence of [try_push] and [try_pop] calls
    on a freshly constructed buffer, the number of pushed-but-not-popped
    elements is [(head - tail) mod Capacity], and it is at most
    [Capacity - 1]. *)
Theorem live_count (zero : T) (cs : list (call T)) :
  exists es r,
    run CapacityPow2 (fresh CapacityPow2 zero) cs = Ok (es, r) /\
    live es = (head r - tail r) mod CapacityPow2 /\
    live es <= CapacityPow2 - 1.
Proof.
  destruct (run_from_fresh zero cs) as (es & r & q & Hrun & Hq & Heq).
  exists es, r. split; [done|].
  assert (Hlive : live es = Z.of_nat (length q)).
  { unfold live. rewrite Heq, length_app. lia. }
  rewrite Hlive. split.
  - by destruct Hq as (_ & ? & _).
  - by eapply holds_length.
Qed.

(** First-in first-out delivery, for one capacity. *)
Lemma popped_prefix_of_pushed (zero : T) (cs : list (call T)) :
  exists es r,
    run CapacityPow2 (fresh CapacityPow2 zero) cs = Ok (es, r) /\
    (no_push_failed es = true ->
     popped_values es `prefix_of` push_args cs).
Proof.
  destruct (run_from_fresh zero cs) as (es & r & q & Hrun & Hq & Heq).
  exists es, r. split; [done|]. intros Hok.
  rewrite <- (run_no_push_failed cs _ _ _ Hrun Hok), Heq.
  by exists q.
Qed.

(** ** Batch operations *)

Lemma push_many_loop_spec fuel :
  forall (r : SpscRing T) (xs : list T) (n pushed : Z),
    n < size_t_modulus ->
    0 <= pushed <= n -> n <= Z.of_nat (length xs) ->
    (Z.to_nat (n - pushed) <= fuel)%nat ->
    push_many_loop CapacityPow2 fuel r xs n pushed =
      '(k, r') ← spec_push_each CapacityPow2 r
                   (take (Z.to_nat (n - pushed)) (drop (Z.to_nat pushed) xs));
      Ok (pushed + k, r').
Proof.
  induction fuel as [|fuel IH]; intros r xs n pushed Hn Hp Hlen Hfuel.
  - replace (Z.to_nat (n - pushed)) with 0%nat by lia.
    simpl. by rewrite Z.add_0_r.
  - simpl. destruct (Z.ltb_spec pushed n) as [Hlt|Hge].
    + destruct (load_in_range xs pushed) as (x & Hx & ->); [lia|]. simpl.
      replace (Z.to_nat (n - pushed)) with (S (Z.to_nat (n - (pushed + 1))))
        by lia.
      rewrite (drop_S _ _ _ Hx). simpl.
      destruct (try_push CapacityPow2 r x) as [[[|] r1]|]; simpl.
      * rewrite wrap_small by lia. rewrite IH by lia.
        replace (Z.to_nat (pushed + 1)) with (S (Z.to_nat pushed)) by lia.
        destruct (spec_push_each _ _ _) as [[k r2]|]; simpl; [|done].
        do 2 f_equal. lia.
      * by rewrite Z.add_0_r.
      * done.
    + replace (Z.to_nat (n - pushed)) with 0%nat by lia.
      simpl. by rewrite Z.add_0_r.
Qed.

(** More fuel than the loop can use does not change its result. *)
Lemma push_many_loop_fuel fuel (r : SpscRing T) (xs : list T) (n pushed : Z) :
  n < size_t_modulus ->
  0 <= pushed <= n -> n <= Z.of_nat (length xs) ->
  (Z.to_nat (n - pushed) <= fuel)%nat ->
  push_many_loop CapacityPow2 fuel r xs n pushed =
    push_many_loop CapacityPow2 (Z.to_nat (n - pushed)) r xs n pushed.
Proof.
  intros. by rewrite !push_many_loop_spec.
Qed.

Lemma pop_many_loop_spec fuel :
  forall (r : SpscRing T) (xs : list T) (n popped : Z),
    n < size_t_modulus ->
    0 <= popped <= n -> n <= Z.of_nat (length xs) ->
    (Z.to_nat (n - popped) <= fuel)%nat ->
    pop_many_loop CapacityPow2 fuel r xs n popped =
      '(k, r', vs) ← spec_pop_each CapacityPow2 r
                   (take (Z.to_nat (n - popped)) (drop (Z.to_nat popped) xs));
      Ok (popped + k, r',
          take (Z.to_nat popped) xs ++ vs ++ drop (Z.to_nat n) xs).
Proof.
  induction fuel as [|fuel IH]; intros r xs n popped Hn Hp Hlen Hfuel.
  - replace (Z.to_nat (n - popped)) with 0%nat by lia.
    assert (popped = n) as -> by lia.
    simpl. by rewrite Z.add_0_r, take_drop.
  - simpl. destruct (Z.ltb_spec popped n) as [Hlt|Hge].
    + destruct (load_in_range xs popped) as (out & Hout & ->); [lia|].
      simpl.
      replace (Z.to_nat (n - popped)) with (S (Z.to_nat (n - (popped + 1))))
        by lia.
      rewrite (drop_S _ _ _ Hout). simpl.
      destruct (try_pop CapacityPow2 r out) as [[[ok r1] v]|]; simpl;
        [|done].
      rewrite store_in_range by lia. simpl.
      set (i := Z.to_nat popped).
      assert (Hi : (i < length xs)%nat) by lia.
      assert (Hrest : drop (S i) xs =
                take (Z.to_nat (n - (popped + 1))) (drop (S i) xs)
                ++ drop (Z.to_nat n) xs).
      { rewrite <- (take_drop (Z.to_nat (n - (popped + 1))) (drop (S i) xs))
          at 1.
        rewrite drop_drop. do 2 f_equal. lia. }
      destruct ok.
      * rewrite wrap_small by lia. rewrite IH;
          [|done|lia|by rewrite length_insert|lia].
        replace (Z.to_nat (popped + 1)) with (S i) by lia.
        rewrite !drop_insert_lt by lia.
        rewrite take_insert_lt by lia.
        rewrite (take_S_r _ _ out) by done.
        rewrite insert_app_r_alt by (rewrite length_take; lia).
        replace (i - length (take i xs))%nat with 0%nat
          by (rewrite length_take; lia).
        destruct (spec_pop_each _ _ _) as [[[k r2] vs]|]; simpl; [|done].
        rewrite <- !app_assoc. simpl. do 3 f_equal. lia.
      * simpl. rewrite Z.add_0_r. do 2 f_equal.
        rewrite insert_take_drop by done. simpl. by rewrite <- Hrest.
    + replace (Z.to_nat (n - popped)) with 0%nat by lia.
      assert (popped = n) as -> by lia.
      simpl. by rewrite Z.add_0_r, take_drop.
Qed.

Lemma pop_many_loop_fuel fuel (r : SpscRing T) (xs : list T) (n popped : Z) :
  n < size_t_modulus ->
  0 <= popped <= n -> n <= Z.of_nat (length xs) ->
  (Z.to_nat (n - popped) <= fuel)%nat ->
  pop_many_loop CapacityPow2 fuel r xs n popped =
    pop_many_loop CapacityPow2 (Z.to_nat (n - popped)) r xs n popped.
Proof.
  intros. by rewrite !pop_many_loop_spec.
Qed.

(** C6: [push_many(xs, n)] ends in the same state, with the same count,
    as [try_push] applied to [xs[0]], [xs[1]], ... until the first refusal
    or until [n] values are in; [pop_many(out, n)] likewise is [try_pop]
    iterated until the first empty refusal, and returns the number
    popped.  [xs] holds at least [n] elements. *)
Theorem batch_is_iterated_single (r : SpscRing T) (xs : list T) (n : Z) :
  0 <= n < size_t_modulus -> n <= Z.of_nat (length xs) ->
  push_many CapacityPow2 r xs n = spec_push_many CapacityPow2 r xs n /\
  pop_many CapacityPow2 r xs n = spec_pop_many CapacityPow2 r xs n.
Proof.
  intros Hn Hlen. split.
  - unfold push_many, spec_push_many.
    rewrite push_many_loop_spec by lia.
    rewrite Z.sub_0_r. simpl.
    by destruct (spec_push_each _ _ _) as [[k r']|].
  - unfold pop_many, spec_pop_many.
    rewrite pop_many_loop_spec by lia.
    rewrite Z.sub_0_r. simpl.
    by destruct (spec_pop_each _ _ _) as [[[k r'] vs]|].
Qed.


End RingProperties.

(** ** Witnesses on a four-slot ring of integers *)

Lemma capacity_4_in_range : 0 < 4 < size_t_modulus.
Proof. split; reflexivity. Defined.

Lemma capacity_4_passes : static_assert_pow2 4 = true.
Proof. reflexivity. Defined.

Lemma wf_4_fresh : wf 4 (fresh 4 0).
Proof. unfold wf. simpl. lia. Defined.

Lemma try_push_correct_witness :
  try_push 4 (fresh 4 0) 7 =
    Ok (true, {| head := 1; tail := 0; buf := [7; 0; 0; 0] |}) /\
  <[0%nat := 7]> [0; 0; 0; 0] !! 0%nat = Some 7.
Proof.
  apply (proj1 (try_push_correct 4 capacity_4_in_range capacity_4_passes
                  (fresh 4 0) 7 wf_4_fresh)).
  simpl. discriminate.
Defined.

Lemma try_pop_correct_witness :
  exists v,
    [7; 0; 0; 0] !! 0%nat = Some v /\
    try_pop 4 {| head := 1; tail := 0; buf := [7; 0; 0; 0] |} 0 =
      Ok (true, {| head := 1; tail := 1; buf := [7; 0; 0; 0] |}, v).
Proof.
  apply (proj1 (try_pop_correct 4 capacity_4_in_range capacity_4_passes
                  {| head := 1; tail := 0; buf := [7; 0; 0; 0] |} 0
                  ltac:(unfold wf; simpl; lia))).
  simpl. discriminate.
Defined.

Lemma failed_call_changes_nothing_witness :
  try_push 4 {| head := 3; tail := 0; buf := [1; 2; 3; 0] |} 4 =
    Ok (false, {| head := 3; tail := 0; buf := [1; 2; 3; 0] |}).
Proof.
  apply (proj1 (failed_call_changes_nothing 4 capacity_4_in_range capacity_4_passes
                  {| head := 3; tail := 0; buf := [1; 2; 3; 0] |} 4 0
                  ltac:(unfold wf; simpl; lia))).
  reflexivity.
Defined.

Lemma indices_below_capacity_witness :
  0 <= head {| head := 1; tail := 0; buf := [7; 0; 0; 0] |} < 4 /\
  0 <= tail {| head := 1; tail := 0; buf := [7; 0; 0; 0] |} < 4.
Proof.
  apply (indices_below_capacity 4 capacity_4_in_range capacity_4_passes 0).
  apply (reach_try_push 4 0 (fresh 4 0) 7 true); [apply reach_fresh|].
  reflexivity.
Defined.

Lemma live_count_witness :
  exists es r,
    run 4 (fresh 4 0) wrapped_calls = Ok (es, r) /\
    live es = (head r - tail r) mod 4 /\
    live es <= 4 - 1.
Proof.
  apply (live_count 4 capacity_4_in_range capacity_4_passes 0 wrapped_calls).
Defined.

Lemma batch_is_iterated_single_witness :
  push_many 4 (fresh 4 0) [1; 2; 3; 4; 5] 5 =
    spec_push_many 4 (fresh 4 0) [1; 2; 3; 4; 5] 5 /\
  pop_many 4 (fresh 4 0) [1; 2; 3; 4; 5] 5 =
    spec_pop_many 4 (fresh 4 0) [1; 2; 3; 4; 5] 5.
Proof.
  apply (batch_is_iterated_single 4 (fresh 4 0) [1; 2; 3; 4; 5] 5).
  - split; [lia | reflexivity].
  - simpl. lia.
Defined.

(** ** The compile-time check *)

(** C7, as amended: a capacity of at least 1 passes the template's
    [static_assert] exactly when it is a power of two, so every capacity of
    2 or more that is not a power of two is rejected at compile time. *)
Theorem static_assert_rejects_non_pow2 (c : Z) :
  1 <= c < size_t_modulus ->
  (static_assert_pow2 c = false <-> ~ is_pow2 c).
Proof.
  intros Hc. split.
  - intros Hrej Hp.
    rewrite static_assert_pow2_complete in Hrej by (done || lia).
    discriminate.
  - intros Hnp. destruct (static_assert_pow2 c) eqn:Hchk; [|done].
    exfalso. apply Hnp. apply static_assert_pow2_sound; [lia|done].
Qed.

Lemma six_is_not_pow2 : ~ is_pow2 6.
Proof.
  intros (k & Hk & Heq).
  destruct (Z.le_gt_cases 3 k) as [Hbig|Hsmall].
  - pose proof (Z.pow_le_mono_r 2 3 k ltac:(lia) Hbig) as Hle.
    change (2 ^ 3) with 8 in Hle. lia.
  - assert (k = 0 \/ k = 1 \/ k = 2) as [->|[->| ->]] by lia;
      discriminate Heq.
Qed.

Lemma six_in_range : 1 <= 6 < size_t_modulus.
Proof. split; [lia | reflexivity]. Defined.

Lemma static_assert_rejects_non_pow2_witness : static_assert_pow2 6 = false.
Proof.
  pose proof (static_assert_rejects_non_pow2 6 six_in_range) as Hiff.
  apply (proj2 Hiff). exact six_is_not_pow2.
Defined.

(** Capacity 1 is less than 2, passes the check, and gives a buffer on
    which every push is refused. *)
Lemma capacity_one_accepted :
  1 < 2 /\
  static_assert_pow2 1 = true /\
  try_push 1 (fresh 1 0) 7 = Ok (false, fresh 1 0) /\
  try_pop 1 (fresh 1 0) 7 = Ok (false, fresh 1 0, 7).
Proof. repeat split. Qed.

(** ** Indices are slot numbers, not free-running counters *)

(** After [wrapped_calls] one element is live, [head] is 0 and [tail] is 3:
    the difference taken modulo [2^64] is not the number of live elements,
    and it exceeds [Capacity - 1]. *)
Lemma live_count_not_mod_width :
  exists es r,
    run 4 (fresh 4 0) wrapped_calls = Ok (es, r) /\
    live es = 1 /\
    (head r - tail r) mod size_t_modulus = 18446744073709551613 /\
    live es <> (head r - tail r) mod size_t_modulus /\
    ~ (head r - tail r) mod size_t_modulus <= 4 - 1.
Proof.
  eexists _, _. split; [reflexivity|]. simpl head. simpl tail.
  split; [reflexivity|]. split; [reflexivity|]. split.
  - intros Heq. vm_compute in Heq. discriminate Heq.
  - intros Hle. apply Hle. reflexivity.
Qed.

(** ** First-in first-out delivery *)

(** C4: on a freshly constructed buffer every sequence of [try_push] and
    [try_pop] calls runs to completion, and when no push was refused the
    popped values are, in order, an initial part of the pushed values.  In
    particular, pushing and popping the integers 0..999 one at a time
    through a 16-slot buffer delivers exactly 0..999. *)
Theorem fifo_order :
  (forall (T : Type) (CapacityPow2 : Z) (zero : T) (cs : list (call T)),
     0 < CapacityPow2 < size_t_modulus ->
     static_assert_pow2 CapacityPow2 = true ->
     exists es r,
       run CapacityPow2 (fresh CapacityPow2 zero) cs = Ok (es, r) /\
       (no_push_failed es = true ->
        popped_values es `prefix_of` push_args cs)) /\
  (exists es r,
     run 16 (fresh 16 0) (one_at_a_time (sequential 1000)) = Ok (es, r) /\
     no_push_failed es = true /\
     push_args (one_at_a_time (sequential 1000)) = sequential 1000 /\
     popped_values es = sequential 1000).
Proof.
  split.
  - intros T c zero cs Hc Hchk. by apply popped_prefix_of_pushed.
  - destruct (run 16 (fresh 16 0) (one_at_a_time (sequential 1000)))
      as [[es r]|] eqn:Hrun; [|by vm_compute in Hrun].
    exists es, r. split; [done|].
    assert (Hes : no_push_failed es
                  && bool_decide (popped_values es = sequential 1000) = true).
    { vm_compute in Hrun. injection Hrun as <- <-. by vm_compute. }
    apply andb_true_iff in Hes as [Hok Hpop].
    apply bool_decide_eq_true in Hpop.
    split; [done|]. split; [by vm_compute | done].
Qed.

Lemma fifo_order_witness :
  exists es r,
    run 4 (fresh 4 0) wrapped_calls = Ok (es, r) /\
    no_push_failed es = true /\
    popped_values es `prefix_of` push_args wrapped_calls.
Proof.
  destruct (proj1 fifo_order Z 4 0 wrapped_calls capacity_4_in_range
              capacity_4_passes)
    as (es & r & Hrun & Hfifo).
  exists es, r. split; [exact Hrun|].
  assert (Hok : no_push_failed es = true).
  { vm_compute in Hrun. injection Hrun as <- <-. reflexivity. }
  split; [exact Hok | exact (Hfifo Hok)].
Defined.

(** The scenario of the specification, capacity 4: 1, 2, 3 are accepted,
    4 is refused, two pops deliver 1 and 2, 4 is accepted, and the last two
    pops deliver 3 and 4. *)
Example spec_scenario_trace :
  exists r,
    run 4 (fresh 4 0) spec_scenario =
      Ok ([Pushed 1 true; Pushed 2 true; Pushed 3 true; Pushed 4 false;
           Popped true 1; Popped true 2; Pushed 4 true;
           Popped true 3; Popped true 4], r).
Proof. eexists. reflexivity. Qed.

(** ** Sharded counters *)

Section ShardedCounters.
Import Counters.

Variable iters : Z.
Hypothesis Hiters : 0 <= iters < size_t_modulus.

Lemma iterate_inv (t : nat) (s s' : bench) :
  shards s = shard_of <$> loop_i s ->
  Forall (fun i => 0 <= i <= iters) (loop_i s) ->
  iterate iters t s = Some s' ->
  shards s' = shard_of <$> loop_i s' /\
  Forall (fun i => 0 <= i <= iters) (loop_i s') /\
  length (loop_i s') = length (loop_i s).
Proof.
  intros Hsh Hrange Hit. unfold iterate in Hit.
  destruct (loop_i s !! t) as [i|] eqn:Hi; [|done]. simpl in Hit.
  assert (Hpc : shards s !! t = Some (shard_of i)).
  { by rewrite Hsh, list_lookup_fmap, Hi. }
  rewrite Hpc in Hit. simpl in Hit.
  destruct (Z.ltb_spec i iters) as [Hlt|]; [|done].
  injection Hit as <-. simpl.
  assert (0 <= i <= iters) as Hi0.
  { by eapply (proj1 (Forall_lookup _ _) Hrange). }
  rewrite !wrap_small by lia.
  split; [|split].
  - by rewrite Hsh, list_fmap_insert.
  - apply Forall_insert; [done|lia].
  - apply length_insert.
Qed.

Lemma interleave_inv (sched : list nat) : forall (s s' : bench),
  shards s = shard_of <$> loop_i s ->
  Forall (fun i => 0 <= i <= iters) (loop_i s) ->
  interleave iters sched s = Some s' ->
  shards s' = shard_of <$> loop_i s' /\
  Forall (fun i => 0 <= i <= iters) (loop_i s') /\
  length (loop_i s') = length (loop_i s).
Proof.
  induction sched as [|t sched IH]; intros s s' Hsh Hrange Hrun;
    simpl in Hrun.
  - by injection Hrun as <-.
  - destruct (iterate iters t s) as [s1|] eqn:Hit; [|done]. simpl in Hrun.
    destruct (iterate_inv t s s1 Hsh Hrange Hit) as (Hsh1 & Hrange1 & Hlen1).
    destruct (IH s1 s' Hsh1 Hrange1 Hrun) as (? & ? & Hlen).
    repeat split; [done..|]. by rewrite Hlen.
Qed.

Lemma reduce_all_done (l : list Z) : forall acc : Z,
  Forall (fun i => i = iters) l ->
  0 <= acc -> acc + Z.of_nat (length l) * iters < size_t_modulus ->
  fold_left (fun sum pc => wrap (sum + v pc)) (shard_of <$> l) acc =
    acc + Z.of_nat (length l) * iters.
Proof.
  induction l as [|i l IH]; intros acc Hall Hacc Hbound.
  - simpl. lia.
  - apply Forall_cons in Hall as [-> Hall].
    simpl fold_left. simpl length in *.
    rewrite wrap_small by nia.
    rewrite IH by (done || nia). lia.
Qed.

Lemma joined_all_done (s : bench) :
  Forall (fun i => 0 <= i <= iters) (loop_i s) ->
  joined iters s = true ->
  Forall (fun i => i = iters) (loop_i s).
Proof.
  unfold joined. intros Hrange Hj. rewrite forallb_forall in Hj.
  apply Forall_forall. intros i Hi.
  pose proof (proj1 (Forall_forall _ _) Hrange i Hi) as Hi0. simpl in Hi0.
  apply list_elem_of_In in Hi. specialize (Hj i Hi).
  apply negb_true_iff in Hj. destruct (Z.ltb_spec i iters); [done|lia].
Qed.

(** Whatever the interleaving, once every thread has left its loop the
    reduction is the number of threads times the iteration count. *)
Lemma reduce_after_join (threads : Z) (sched : list nat) (s : bench) :
  0 <= threads -> threads * iters < size_t_modulus ->
  interleave iters sched (start threads) = Some s ->
  joined iters s = true ->
  reduce (shards s) = threads * iters.
Proof.
  intros Hthreads Hbound Hrun Hjoin.
  destruct (interleave_inv sched (start threads) s) as (Hsh & Hrange & Hlen).
  - simpl. by rewrite fmap_replicate.
  - simpl. apply Forall_replicate. lia.
  - done.
  - simpl in Hlen. rewrite length_replicate in Hlen.
    unfold reduce. rewrite Hsh.
    rewrite reduce_all_done; [lia | by apply joined_all_done | lia | lia].
Qed.

(** One thread running [m] iterations on its own. *)
Lemma thread_runs (t : nat) (m : nat) : forall (l : list Z) (i : Z),
  l !! t = Some i -> 0 <= i -> i + Z.of_nat m <= iters ->
  interleave iters (replicate m t)
    {| shards := shard_of <$> l; loop_i := l |} =
  Some {| shards := shard_of <$> <[t := i + Z.of_nat m]> l;
          loop_i := <[t := i + Z.of_nat m]> l |}.
Proof.
  induction m as [|m IH]; intros l i Hi Hi0 Hm.
  - simpl. rewrite Z.add_0_r. by rewrite list_insert_id.
  - simpl. unfold iterate. simpl. rewrite Hi. simpl.
    rewrite list_lookup_fmap, Hi. simpl.
    destruct (Z.ltb_spec i iters); [|lia].
    rewrite !wrap_small by lia.
    rewrite <- list_fmap_insert. simpl.
    rewrite (IH _ (i + 1)); [|apply list_lookup_insert_eq;
                              by eapply lookup_lt_Some|lia|lia].
    rewrite list_insert_insert_eq.
    by replace (i + 1 + Z.of_nat m) with (i + Z.of_nat (S m)) by lia.
Qed.

Lemma interleave_app (s1 s2 : list nat) (s : bench) :
  interleave iters (s1 ++ s2) s =
    s' ← interleave iters s1 s; interleave iters s2 s'.
Proof.
  revert s. induction s1 as [|t s1 IH]; intros s; simpl; [done|].
  destruct (iterate iters t s); simpl; [apply IH|done].
Qed.

Lemma threads_run_in_turn (m : nat) : forall (j : nat) (l : list Z),
  length l = j ->
  interleave iters
    (flat_map (fun t => replicate (Z.to_nat iters) t) (seq j m))
    {| shards := shard_of <$> (l ++ replicate m 0);
       loop_i := l ++ replicate m 0 |} =
  Some {| shards := shard_of <$> (l ++ replicate m iters);
          loop_i := l ++ replicate m iters |}.
Proof.
  induction m as [|m IH]; intros j l Hl; [done|].
  rewrite !replicate_S. simpl seq. simpl flat_map. rewrite interleave_app.
  rewrite (thread_runs j _ _ 0); [|by apply list_lookup_middle|lia|lia].
  simpl. rewrite Z2Nat.id by lia.
  rewrite <- Hl, insert_app_r_alt, Nat.sub_diag by lia. simpl.
  rewrite !(cons_middle _ l), !app_assoc.
  apply IH. rewrite length_app. simpl. lia.
Qed.

(** A complete execution exists: the threads may run one after another. *)
Lemma one_after_another_joins (threads : Z) :
  exists s,
    interleave iters (one_after_another threads iters) (start threads)
      = Some s /\
    joined iters s = true.
Proof.
  eexists. split.
  - unfold one_after_another, start.
    rewrite <- fmap_replicate.
    apply (threads_run_in_turn (Z.to_nat threads) 0%nat []). done.
  - unfold joined. simpl. apply forallb_forall. intros i Hi.
    apply list_elem_of_In, elem_of_replicate in Hi as [-> _].
    by rewrite Z.ltb_irrefl.
Qed.

End ShardedCounters.

(** The benchmark's own runs: 2, 4 or 8 threads share 64M increments. *)
Lemma benchmark_sum (threads : Z) (sched : list nat) (s : Counters.bench) :
  In threads [2; 4; 8] ->
  Counters.interleave (Counters.iters_per_thread threads) sched
    (Counters.start threads) = Some s ->
  Counters.joined (Counters.iters_per_thread threads) s = true ->
  Counters.reduce (Counters.shards s) = Counters.total_increments.
Proof.
  intros Hn Hrun Hjoin. simpl in Hn.
  rewrite (reduce_after_join (Counters.iters_per_thread threads))
    with (threads := threads) (sched := sched); [| | | |done..].
  - by destruct Hn as [<-|[<-|[<-|[]]]].
  - by destruct Hn as [<-|[<-|[<-|[]]]].
  - lia.
  - by destruct Hn as [<-|[<-|[<-|[]]]].
Qed.

(** C8: for [N] shards and [K] iterations per thread, [N] in {1, 2, 4, 8}
    and [K] in {1, 1000, 1000000}: the threads can run to completion, and
    after every interleaving in which all of them have left their loops (the
    joins have returned) the reduction over the shards is exactly [N * K]. *)
Theorem sharded_counters_sum (threads iters : Z) :
  In threads [1; 2; 4; 8] -> In iters [1; 1000; 1000000] ->
  (exists sched s,
     Counters.interleave iters sched (Counters.start threads) = Some s /\
     Counters.joined iters s = true) /\
  (forall sched s,
     Counters.interleave iters sched (Counters.start threads) = Some s ->
     Counters.joined iters s = true ->
     Counters.reduce (Counters.shards s) = threads * iters).
Proof.
  intros Hn Hk.
  assert (Hiters : 0 <= iters < size_t_modulus).
  { rewrite size_t_modulus_eq. simpl in Hk. lia. }
  split.
  - exists (Counters.one_after_another threads iters).
    by apply one_after_another_joins.
  - intros sched s Hrun Hjoin.
    apply (reduce_after_join iters Hiters threads sched); [| |done..].
    + simpl in Hn. lia.
    + rewrite size_t_modulus_eq. simpl in Hn, Hk. lia.
Qed.

Lemma sharded_counters_sum_witness :
  Counters.reduce
    [{| Counters.v := 1 |}; {| Counters.v := 1 |}] = 2 * 1.
Proof.
  apply (proj2 (sharded_counters_sum 2 1 ltac:(simpl; tauto) ltac:(simpl; tauto))
           [1%nat; 0%nat]
           {| Counters.shards := [{| Counters.v := 1 |}; {| Counters.v := 1 |}];
              Counters.loop_i := [1; 1] |});
    reflexivity.
Defined.

(** * Further properties of the ring buffer *)

Section RingBatches.
Context {T : Type}.
Variable CapacityPow2 : Z.
Hypothesis Hcap : 0 < CapacityPow2 < size_t_modulus.
Hypothesis Hassert : static_assert_pow2 CapacityPow2 = true.

(** ** Full and empty, read off the queue *)

Lemma holds_full_iff (r : SpscRing T) (q : list T) :
  holds CapacityPow2 r q ->
  ((head r + 1) mod CapacityPow2 = tail r <->
   Z.of_nat (length q) = CapacityPow2 - 1).
Proof.
  intros ((Hh & Ht & _) & Hlen & _).
  rewrite mod_step by done. rewrite mod_diff in Hlen by done.
  destruct (Z.eqb_spec (head r + 1) CapacityPow2);
    destruct (Z.ltb_spec (head r) (tail r)); lia.
Qed.

Lemma holds_empty_iff (r : SpscRing T) (q : list T) :
  holds CapacityPow2 r q -> (tail r = head r <-> q = []).
Proof.
  intros ((Hh & Ht & _) & Hlen & _).
  rewrite mod_diff in Hlen by done.
  destruct (Z.ltb_spec (head r) (tail r)); destruct q; simpl in *;
    split; intros; try done; lia.
Qed.

Lemma slots_as_list (r : SpscRing T) (n : nat) :
  (forall i : nat, (i < n)%nat ->
     is_Some (buf r !! Z.to_nat ((tail r + Z.of_nat i) mod CapacityPow2))) ->
  exists q : list T,
    length q = n /\
    forall (i : nat) (x : T), q !! i = Some x ->
      buf r !! Z.to_nat ((tail r + Z.of_nat i) mod CapacityPow2) = Some x.
Proof.
  induction n as [|n IH]; intros Hs.
  - exists []. split; [done|]. intros i x Hi. by rewrite lookup_nil in Hi.
  - destruct IH as (q & Hq & Hq'); [intros; apply Hs; lia|].
    destruct (Hs n) as [y Hy]; [lia|].
    exists (q ++ [y]). split; [rewrite length_app; simpl; lia|].
    intros i x Hi. destruct (decide (i < length q)%nat).
    + rewrite lookup_app_l in Hi by done. by apply Hq'.
    + assert (i = n).
      { apply lookup_lt_Some in Hi. rewrite length_app in Hi.
        simpl in Hi. lia. }
      subst i. rewrite lookup_app_r, Hq, Nat.sub_diag in Hi by lia.
      simpl in Hi. by injection Hi as <-.
Qed.

(** Every well-formed state holds a queue: the slots from [tail] to [head]. *)
Lemma wf_holds (r : SpscRing T) :
  wf CapacityPow2 r -> exists q, holds CapacityPow2 r q.
Proof.
  intros Hwf. pose proof Hwf as (Hh & Ht & Hbuf).
  pose proof (Z.mod_pos_bound (head r - tail r) CapacityPow2 ltac:(lia)).
  destruct (slots_as_list r (Z.to_nat ((head r - tail r) mod CapacityPow2)))
    as (q & Hq & Hslots).
  - intros i Hi. apply lookup_lt_is_Some.
    pose proof (Z.mod_pos_bound (tail r + Z.of_nat i) CapacityPow2). lia.
  - exists q. split; [done|]. split; [lia|done].
Qed.

(** ** What the batch operations transfer *)

Lemma spec_push_each_holds (vals : list T) : forall (r : SpscRing T) (q : list T),
  holds CapacityPow2 r q ->
  exists r',
    spec_push_each CapacityPow2 r vals =
      Ok (Z.min (Z.of_nat (length vals))
                (CapacityPow2 - 1 - Z.of_nat (length q)), r') /\
    holds CapacityPow2 r'
      (q ++ take (Z.to_nat (Z.min (Z.of_nat (length vals))
                              (CapacityPow2 - 1 - Z.of_nat (length q)))) vals).
Proof.
  induction vals as [|x rest IH]; intros r q Hq.
  - pose proof (holds_length CapacityPow2 Hcap r q Hq).
    exists r. simpl. rewrite Z.min_l by lia. simpl.
    by rewrite app_nil_r.
  - pose proof (holds_length CapacityPow2 Hcap r q Hq) as Hbound.
    pose proof Hq as (Hwf & _).
    pose proof (holds_full_iff r q Hq) as Hfull.
    simpl spec_push_each.
    destruct (try_push_cases CapacityPow2 Hcap Hassert r x Hwf)
      as [[E Hf]|[E Hroom]]; rewrite E; simpl.
    + apply Hfull in Hf. exists r. rewrite Z.min_r by lia.
      replace (CapacityPow2 - 1 - Z.of_nat (length q)) with 0 by lia.
      simpl. by rewrite app_nil_r.
    + assert (Z.of_nat (length q) < CapacityPow2 - 1).
      { destruct (Z.eq_dec (Z.of_nat (length q)) (CapacityPow2 - 1)) as [e|];
          [by apply Hfull in e | lia]. }
      pose proof (try_push_holds CapacityPow2 Hcap Hassert r q x _ _ Hq E)
        as Hq1. simpl in Hq1.
      destruct (IH _ _ Hq1) as (r' & Hrest & Hq').
      rewrite length_app in Hrest, Hq'. simpl length in Hrest, Hq'.
      rewrite Hrest. simpl. exists r'.
      set (k' := Z.min (Z.of_nat (length rest))
                   (CapacityPow2 - 1 - Z.of_nat (length q + 1))) in *.
      assert (Hk : Z.min (Z.of_nat (S (length rest)))
                     (CapacityPow2 - 1 - Z.of_nat (length q)) = 1 + k')
        by (unfold k'; lia).
      rewrite Hk. split; [done|].
      replace (Z.to_nat (1 + k')) with (S (Z.to_nat k')) by (unfold k'; lia).
      simpl. by rewrite <- app_assoc in Hq'.
Qed.

Lemma push_many_as_spec (r : SpscRing T) (xs : list T) (n : Z) :
  0 <= n < size_t_modulus -> n <= Z.of_nat (length xs) ->
  push_many CapacityPow2 r xs n =
    spec_push_each CapacityPow2 r (take (Z.to_nat n) xs).
Proof.
  intros Hn Hlen. unfold push_many.
  rewrite push_many_loop_spec by lia.
  rewrite Z.sub_0_r. simpl.
  by destruct (spec_push_each _ _ _) as [[k r']|].
Qed.

Lemma push_many_holds (r : SpscRing T) (q xs : list T) (n : Z) :
  holds CapacityPow2 r q ->
  0 <= n < size_t_modulus -> n <= Z.of_nat (length xs) ->
  exists r',
    push_many CapacityPow2 r xs n =
      Ok (Z.min n (CapacityPow2 - 1 - Z.of_nat (length q)), r') /\
    holds CapacityPow2 r'
      (q ++ take (Z.to_nat (Z.min n (CapacityPow2 - 1 - Z.of_nat (length q))))
              xs).
Proof.
  intros Hq Hn Hlen. rewrite push_many_as_spec by done.
  destruct (spec_push_each_holds (take (Z.to_nat n) xs) r q Hq)
    as (r' & Hrun & Hq').
  rewrite length_take in Hrun, Hq'.
  replace (Z.of_nat (Z.to_nat n `min` length xs)) with n in Hrun, Hq' by lia.
  exists r'. split; [done|].
  rewrite take_take in Hq'.
  by replace (Z.to_nat (Z.min n (CapacityPow2 - 1 - Z.of_nat (length q)))
              `min` Z.to_nat n)%nat
    with (Z.to_nat (Z.min n (CapacityPow2 - 1 - Z.of_nat (length q))))
    in Hq' by lia.
Qed.

Lemma spec_pop_each_holds (cells : list T) : forall (r : SpscRing T) (q : list T),
  holds CapacityPow2 r q ->
  exists r',
    spec_pop_each CapacityPow2 r cells =
      Ok (Z.of_nat (length cells `min` length q), r',
          take (length cells) q ++ drop (length q) cells) /\
    holds CapacityPow2 r' (drop (length cells) q).
Proof.
  induction cells as [|out rest IH]; intros r q Hq.
  - exists r. simpl. split; [by destruct q | done].
  - pose proof Hq as (Hwf & _). simpl spec_pop_each.
    destruct (try_pop CapacityPow2 r out) as [[[ok r1] v]|] eqn:E.
    2: { destruct (try_pop_cases CapacityPow2 Hcap Hassert r out Hwf)
           as [[E' _]|(w & _ & E' & _)]; congruence. }
    pose proof (try_pop_holds CapacityPow2 Hcap Hassert r q out _ _ _ Hq E)
      as Hpop.
    destruct q as [|y q'].
    + destruct Hpop as (-> & -> & ->). simpl. exists r.
      split; done.
    + destruct Hpop as (-> & -> & Hq1). simpl.
      destruct (IH _ _ Hq1) as (r' & Hrest & Hq').
      rewrite Hrest. simpl. exists r'. split; [|done].
      do 3 f_equal. lia.
Qed.

Lemma pop_many_as_spec (r : SpscRing T) (xs : list T) (n : Z) :
  0 <= n < size_t_modulus -> n <= Z.of_nat (length xs) ->
  pop_many CapacityPow2 r xs n =
    '(k, r', vs) ← spec_pop_each CapacityPow2 r (take (Z.to_nat n) xs);
    Ok (k, r', vs ++ drop (Z.to_nat n) xs).
Proof.
  intros Hn Hlen. unfold pop_many.
  rewrite pop_many_loop_spec by lia.
  rewrite Z.sub_0_r. simpl.
  by destruct (spec_pop_each _ _ _) as [[[k r'] vs]|].
Qed.

Lemma pop_many_holds (r : SpscRing T) (q xs : list T) (n : Z) :
  holds CapacityPow2 r q ->
  0 <= n < size_t_modulus -> n <= Z.of_nat (length xs) ->
  exists r',
    pop_many CapacityPow2 r xs n =
      Ok (Z.min n (Z.of_nat (length q)), r',
          take (Z.to_nat (Z.min n (Z.of_nat (length q)))) q
          ++ drop (Z.to_nat (Z.min n (Z.of_nat (length q)))) xs) /\
    holds CapacityPow2 r' (drop (Z.to_nat (Z.min n (Z.of_nat (length q)))) q).
Proof.
  intros Hq Hn Hlen. rewrite pop_many_as_spec by done.
  destruct (spec_pop_each_holds (take (Z.to_nat n) xs) r q Hq)
    as (r' & Hrun & Hq').
  rewrite length_take in Hrun, Hq'.
  replace (Z.to_nat n `min` length xs)%nat with (Z.to_nat n) in Hrun, Hq'
    by lia.
  rewrite Hrun. simpl. exists r'.
  destruct (decide (Z.to_nat n <= length q)%nat) as [Hle|Hgt].
  - replace (Z.to_nat (Z.min n (Z.of_nat (length q)))) with (Z.to_nat n)
      by lia.
    split; [|done]. f_equal. f_equal; [f_equal; lia|].
    rewrite <- app_assoc. f_equal.
    by rewrite (drop_ge (take _ _)) by (rewrite length_take; lia).
  - replace (Z.to_nat (Z.min n (Z.of_nat (length q)))) with (length q)
      by lia.
    rewrite drop_ge in Hq' by lia. rewrite drop_all. split; [|done].
    f_equal. f_equal; [f_equal; lia|].
    rewrite <- app_assoc, !firstn_all2 by lia. f_equal; [by rewrite firstn_all|].
    rewrite <- (take_drop (Z.to_nat n) xs) at 3.
    rewrite drop_app_le by (rewrite length_take; lia). done.
Qed.

(** ** Calls are defined in every reachable state *)

Lemma spec_push_each_defined (vals : list T) : forall r : SpscRing T,
  wf CapacityPow2 r ->
  exists k r', spec_push_each CapacityPow2 r vals = Ok (k, r').
Proof.
  intros r Hwf. destruct (wf_holds r Hwf) as (q & Hq).
  destruct (spec_push_each_holds vals r q Hq) as (r' & -> & _). eauto.
Qed.

Lemma empty_holds_nil (r : SpscRing T) :
  wf CapacityPow2 r -> tail r = head r -> holds CapacityPow2 r [].
Proof.
  intros Hwf Hempty. split; [done|]. split.
  - rewrite Hempty, Z.sub_diag. simpl. by rewrite Z.mod_0_l by lia.
  - intros i x Hi. by rewrite lookup_nil in Hi.
Qed.

(** X1: In every reachable state each of the four operations returns a result:
    no slot outside [buf] is read or written.  The caller's array holds at
    least [n] elements. *)
Theorem reachable_calls_defined (zero : T) (r : SpscRing T) (x out : T)
    (xs : list T) (n : Z) :
  reachable CapacityPow2 zero r ->
  0 <= n < size_t_modulus -> n <= Z.of_nat (length xs) ->
  (exists ok r', try_push CapacityPow2 r x = Ok (ok, r')) /\
  (exists ok r' v, try_pop CapacityPow2 r out = Ok (ok, r', v)) /\
  (exists k r', push_many CapacityPow2 r xs n = Ok (k, r')) /\
  (exists k r' xs', pop_many CapacityPow2 r xs n = Ok (k, r', xs')).
Proof.
  intros Hreach Hn Hlen.
  pose proof (reachable_wf CapacityPow2 Hcap Hassert zero r Hreach) as Hwf.
  destruct (wf_holds r Hwf) as (q & Hq).
  split; [|split; [|split]].
  - destruct (try_push_cases CapacityPow2 Hcap Hassert r x Hwf)
      as [[E _]|[E _]]; rewrite E; eauto.
  - destruct (try_pop_cases CapacityPow2 Hcap Hassert r out Hwf)
      as [[E _]|(v & _ & E & _)]; rewrite E; eauto.
  - destruct (push_many_holds r q xs n Hq Hn Hlen) as (r' & E & _).
    rewrite E. eauto.
  - destruct (pop_many_holds r q xs n Hq Hn Hlen) as (r' & E & _).
    rewrite E. eauto.
Qed.

(** X2: No loss, no duplication, no reordering, refused pushes included: after
    any sequence of [try_push] and [try_pop] calls on a fresh buffer, the
    accepted values are the delivered values followed by the values still in
    the slots from [tail] to [head]. *)
Theorem accepted_is_delivered_then_stored (zero : T) (cs : list (call T)) :
  exists es r q,
    run CapacityPow2 (fresh CapacityPow2 zero) cs = Ok (es, r) /\
    pushed_values es = popped_values es ++ q /\
    holds CapacityPow2 r q.
Proof.
  destruct (run_from_fresh CapacityPow2 Hcap Hassert zero cs)
    as (es & r & q & Hrun & Hq & Heq).
  by exists es, r, q.
Qed.

(** X3: [push_many] accepts exactly as many values as there are free slots, up
    to [n]: with [len] elements queued it returns
    [min n (Capacity - 1 - len)] and appends that many values of [xs], in
    order, to the queue. *)
Theorem push_many_fills_free_slots (r : SpscRing T) (q xs : list T) (n : Z) :
  holds CapacityPow2 r q ->
  0 <= n < size_t_modulus -> n <= Z.of_nat (length xs) ->
  exists r',
    push_many CapacityPow2 r xs n =
      Ok (Z.min n (CapacityPow2 - 1 - Z.of_nat (length q)), r') /\
    holds CapacityPow2 r'
      (q ++ take (Z.to_nat (Z.min n (CapacityPow2 - 1 - Z.of_nat (length q))))
              xs).
Proof. apply push_many_holds. Qed.

(** X4: [pop_many] delivers exactly the queued elements, up to [n]: with [len]
    elements queued it returns [k = min n len], writes the [k] oldest
    elements to [xs[0..k-1]] in order, leaves the other cells of [xs] alone
    and leaves the rest of the queue in the buffer. *)
Theorem pop_many_drains_queue (r : SpscRing T) (q xs : list T) (n : Z) :
  holds CapacityPow2 r q ->
  0 <= n < size_t_modulus -> n <= Z.of_nat (length xs) ->
  exists r',
    pop_many CapacityPow2 r xs n =
      Ok (Z.min n (Z.of_nat (length q)), r',
          take (Z.to_nat (Z.min n (Z.of_nat (length q)))) q
          ++ drop (Z.to_nat (Z.min n (Z.of_nat (length q)))) xs) /\
    holds CapacityPow2 r' (drop (Z.to_nat (Z.min n (Z.of_nat (length q)))) q).
Proof. apply pop_many_holds. Qed.

(** X5: Round trip through an empty buffer: [push_many(xs, n)] followed by
    [pop_many(out, n)] moves the first [k = min n (Capacity - 1)] values of
    [xs] to [out[0..k-1]], both calls return [k], and the buffer is empty
    again. *)
Theorem push_many_pop_many_round_trip (r : SpscRing T) (xs out : list T)
    (n : Z) :
  wf CapacityPow2 r -> tail r = head r ->
  0 <= n < size_t_modulus ->
  n <= Z.of_nat (length xs) -> n <= Z.of_nat (length out) ->
  exists r1 r2,
    push_many CapacityPow2 r xs n = Ok (Z.min n (CapacityPow2 - 1), r1) /\
    pop_many CapacityPow2 r1 out n =
      Ok (Z.min n (CapacityPow2 - 1), r2,
          take (Z.to_nat (Z.min n (CapacityPow2 - 1))) xs
          ++ drop (Z.to_nat (Z.min n (CapacityPow2 - 1))) out) /\
    tail r2 = head r2.
Proof.
  intros Hwf Hempty Hn Hxs Hout.
  destruct (push_many_holds r [] xs n (empty_holds_nil r Hwf Hempty) Hn Hxs)
    as (r1 & Hpush & Hq1).
  simpl in Hpush, Hq1. rewrite Z.sub_0_r in Hpush, Hq1.
  set (k := Z.min n (CapacityPow2 - 1)) in *.
  destruct (pop_many_holds r1 _ out n Hq1 Hn Hout) as (r2 & Hpop & Hq2).
  rewrite length_take in Hpop, Hq2.
  replace (Z.min n (Z.of_nat (Z.to_nat k `min` length xs))) with k
    in Hpop, Hq2 by lia.
  rewrite take_take, Nat.min_id in Hpop.
  rewrite drop_ge in Hq2 by (rewrite length_take; lia).
  exists r1, r2. split; [done|]. split; [done|].
  by apply (holds_empty_iff r2 [] Hq2).
Qed.

(** X6: Round trip of one value through an empty buffer of capacity at least
    2: the push is accepted, the next pop delivers the same value, and the
    buffer is empty again. *)
Theorem try_push_try_pop_round_trip (r : SpscRing T) (x out : T) :
  2 <= CapacityPow2 ->
  wf CapacityPow2 r -> tail r = head r ->
  exists r1 r2,
    try_push CapacityPow2 r x = Ok (true, r1) /\
    try_pop CapacityPow2 r1 out = Ok (true, r2, x) /\
    tail r2 = head r2.
Proof.
  intros Htwo Hwf Hempty.
  pose proof (empty_holds_nil r Hwf Hempty) as Hq.
  destruct (try_push_cases CapacityPow2 Hcap Hassert r x Hwf)
    as [[E Hfull]|[E _]].
  { apply (holds_full_iff r [] Hq) in Hfull. simpl in Hfull. lia. }
  pose proof (try_push_holds CapacityPow2 Hcap Hassert r [] x _ _ Hq E) as Hq1.
  simpl in Hq1. pose proof Hq1 as (Hwf1 & _).
  eexists _, _. split; [exact E|].
  destruct (try_pop_cases CapacityPow2 Hcap Hassert _ out Hwf1)
    as [[E1 _]|(v & _ & E1 & _)];
    pose proof (try_pop_holds CapacityPow2 Hcap Hassert _ _ out _ _ _ Hq1 E1)
      as (Hok & Hv & Hq2); [done|].
  subst v. split; [exact E1|].
  by apply (holds_empty_iff _ [] Hq2).
Qed.

(** X7: With at least two slots a buffer is never full and empty at once: in
    every well-formed state the next push is accepted or the next pop
    delivers, so a spinning producer and a spinning consumer cannot both be
    refused. *)
Theorem push_or_pop_succeeds (r : SpscRing T) (x out : T) :
  2 <= CapacityPow2 -> wf CapacityPow2 r ->
  (exists r', try_push CapacityPow2 r x = Ok (true, r')) \/
  (exists r' v, try_pop CapacityPow2 r out = Ok (true, r', v)).
Proof.
  intros Htwo Hwf.
  destruct (try_pop_cases CapacityPow2 Hcap Hassert r out Hwf)
    as [[_ Hempty]|(v & _ & E & _)]; [|right; eauto].
  left. pose proof (empty_holds_nil r Hwf Hempty) as Hq.
  destruct (try_push_cases CapacityPow2 Hcap Hassert r x Hwf)
    as [[_ Hfull]|[E _]]; [|eauto].
  apply (holds_full_iff r [] Hq) in Hfull. simpl in Hfull. lia.
Qed.

(** X8: Handoff: a pop that delivers frees a slot, so the next push is accepted;
    a push that is accepted makes the next pop deliver. *)
Theorem success_enables_other_side (r r' : SpscRing T) (x out v : T) :
  wf CapacityPow2 r ->
  (try_pop CapacityPow2 r out = Ok (true, r', v) ->
   exists r'', try_push CapacityPow2 r' x = Ok (true, r'')) /\
  (try_push CapacityPow2 r x = Ok (true, r') ->
   exists r'' w, try_pop CapacityPow2 r' out = Ok (true, r'', w)).
Proof.
  intros Hwf. destruct (wf_holds r Hwf) as (q & Hq). split; intros E.
  - pose proof (try_pop_holds CapacityPow2 Hcap Hassert r q out _ _ _ Hq E)
      as Hpop.
    destruct q as [|y q']; [by destruct Hpop|].
    destruct Hpop as (_ & _ & Hq').
    pose proof (holds_length CapacityPow2 Hcap r _ Hq) as Hbound.
    simpl in Hbound. pose proof Hq' as (Hwf' & _).
    destruct (try_push_cases CapacityPow2 Hcap Hassert r' x Hwf')
      as [[_ Hfull]|[E' _]]; [|eauto].
    apply (holds_full_iff r' q' Hq') in Hfull. lia.
  - pose proof (try_push_holds CapacityPow2 Hcap Hassert r q x _ _ Hq E)
      as Hq'. simpl in Hq'. pose proof Hq' as (Hwf' & _).
    destruct (try_pop_cases CapacityPow2 Hcap Hassert r' out Hwf')
      as [[_ Hempty]|(w & _ & E' & _)]; [|eauto].
    apply (holds_empty_iff r' _ Hq') in Hempty. by destruct q.
Qed.

End RingBatches.

(** A ring of capacity 1 never accepts and never delivers a value. *)
Lemma capacity_one_run {T : Type} (cs : list (call T)) : forall r : SpscRing T,
  head r = 0 -> tail r = 0 ->
  exists es,
    run 1 r cs = Ok (es, r) /\ pushed_values es = [] /\ popped_values es = [].
Proof.
  induction cs as [|c cs IH]; intros r Hh Ht; [by exists []|].
  destruct (IH r Hh Ht) as (es & Hrun & Hpushed & Hpopped).
  destruct c as [x|out]; simpl.
  - unfold try_push. rewrite Hh, Ht. simpl. rewrite Hrun. simpl.
    exists (Pushed x false :: es). by simpl.
  - unfold try_pop. rewrite Hh, Ht. simpl. rewrite Hrun. simpl.
    exists (Popped false out :: es). by simpl.
Qed.

(** X9: With [CapacityPow2 = 1] the template compiles, and every [try_push] is
    refused and every [try_pop] comes back empty, whatever the sequence of
    calls: the buffer has no usable slot. *)
Theorem capacity_one_is_inert {T : Type} (zero : T) (cs : list (call T)) :
  static_assert_pow2 1 = true /\
  exists es,
    run 1 (fresh 1 zero) cs = Ok (es, fresh 1 zero) /\
    pushed_values es = [] /\ popped_values es = [].
Proof.
  split; [reflexivity|]. by apply capacity_one_run.
Qed.

(** X10: The compile-time check accepts exactly zero and the powers of two. *)
Theorem static_assert_accepts (c : Z) :
  0 <= c < size_t_modulus ->
  (static_assert_pow2 c = true <-> c = 0 \/ is_pow2 c).
Proof.
  intros Hc. split.
  - intros Hchk. destruct (Z.eq_dec c 0) as [|Hne]; [by left|].
    right. apply static_assert_pow2_sound; [lia|done].
  - intros [->|Hp]; [reflexivity|].
    apply static_assert_pow2_complete; [lia|done].
Qed.

(** * The relaxed-ordering ring, call by call *)

Lemma BadRing_mask : BadRing.mask = mask 4096.
Proof. reflexivity. Qed.

(** X11: When calls do not overlap, [BadRing::try_push] and [BadRing::try_pop]
    return what [SpscRing<uint32_t, 4096>]'s return and leave the same
    indices and slots: the two rings differ in memory ordering only. *)
Theorem BadRing_matches_SpscRing (b : BadRing.BadRing) (x out : Z) :
  ('(ok, b') ← BadRing.try_push b x; Ok (ok, BadRing.as_ring b')) =
    try_push 4096 (BadRing.as_ring b) x /\
  ('(ok, b', v) ← BadRing.try_pop b out; Ok (ok, BadRing.as_ring b', v)) =
    try_pop 4096 (BadRing.as_ring b) out.
Proof.
  unfold BadRing.try_push, BadRing.try_pop, try_push, try_pop.
  rewrite BadRing_mask. destruct b as [h t bf]. simpl. split.
  - destruct (Z.land (wrap (h + 1)) (mask 4096) =? t); [done|].
    by destruct (store bf h x).
  - destruct (t =? h); [done|]. by destruct (load bf t).
Qed.

(** * The shared atomic counter *)

Section SharedCounter.
Import SharedCounter.

Variable iters : Z.
Hypothesis Hiters : 0 <= iters < size_t_modulus.

Lemma sum_Z_insert (l : list Z) : forall (t : nat) (i j : Z),
  l !! t = Some i -> sum_Z (<[t := j]> l) = sum_Z l - i + j.
Proof.
  induction l as [|y l IH]; intros t i j Hi; [done|].
  destruct t as [|t]; simpl in *.
  - injection Hi as ->. lia.
  - rewrite (IH t i j Hi). lia.
Qed.

Lemma sum_Z_bound (l : list Z) :
  Forall (fun i => 0 <= i <= iters) l ->
  0 <= sum_Z l <= Z.of_nat (length l) * iters.
Proof.
  induction 1 as [|i l Hi _ IH]; simpl; [lia|]. nia.
Qed.

Lemma sum_Z_all_done (l : list Z) :
  Forall (fun i => i = iters) l -> sum_Z l = Z.of_nat (length l) * iters.
Proof.
  induction 1 as [|i l -> _ IH]; simpl; [lia|]. rewrite IH. lia.
Qed.

Lemma shared_iterate_inv (t : nat) (s s' : bench) :
  Z.of_nat (length (loop_i s)) * iters < size_t_modulus ->
  shared s = sum_Z (loop_i s) ->
  Forall (fun i => 0 <= i <= iters) (loop_i s) ->
  iterate iters t s = Some s' ->
  shared s' = sum_Z (loop_i s') /\
  Forall (fun i => 0 <= i <= iters) (loop_i s') /\
  length (loop_i s') = length (loop_i s).
Proof.
  intros Hbound Hsh Hrange Hit. unfold iterate in Hit.
  destruct (loop_i s !! t) as [i|] eqn:Hi; [|done]. simpl in Hit.
  destruct (Z.ltb_spec i iters) as [Hlt|]; [|done].
  injection Hit as <-. simpl.
  assert (0 <= i <= iters) as Hi0.
  { by eapply (proj1 (Forall_lookup _ _) Hrange). }
  rewrite (wrap_small (i + 1)) by lia.
  assert (Hrange' : Forall (fun i => 0 <= i <= iters) (<[t := i + 1]> (loop_i s))).
  { apply Forall_insert; [done|lia]. }
  pose proof (sum_Z_bound _ Hrange') as Hsum.
  rewrite length_insert in Hsum.
  rewrite (sum_Z_insert _ t i (i + 1) Hi) in *.
  split; [|split; [done|apply length_insert]].
  rewrite Hsh, wrap_small by lia. lia.
Qed.

Lemma shared_interleave_inv (sched : list nat) : forall (s s' : bench),
  Z.of_nat (length (loop_i s)) * iters < size_t_modulus ->
  shared s = sum_Z (loop_i s) ->
  Forall (fun i => 0 <= i <= iters) (loop_i s) ->
  interleave iters sched s = Some s' ->
  shared s' = sum_Z (loop_i s') /\
  Forall (fun i => 0 <= i <= iters) (loop_i s') /\
  length (loop_i s') = length (loop_i s).
Proof.
  induction sched as [|t sched IH]; intros s s' Hbound Hsh Hrange Hrun;
    simpl in Hrun.
  - by injection Hrun as <-.
  - destruct (iterate iters t s) as [s1|] eqn:Hit; [|done]. simpl in Hrun.
    destruct (shared_iterate_inv t s s1 Hbound Hsh Hrange Hit)
      as (Hsh1 & Hrange1 & Hlen1).
    destruct (IH s1 s') as (? & ? & Hlen); [by rewrite Hlen1|done..|].
    repeat split; [done..|]. by rewrite Hlen.
Qed.

Lemma shared_joined_all_done (s : bench) :
  Forall (fun i => 0 <= i <= iters) (loop_i s) ->
  joined iters s = true ->
  Forall (fun i => i = iters) (loop_i s).
Proof.
  unfold joined. intros Hrange Hj. rewrite forallb_forall in Hj.
  apply Forall_forall. intros i Hi.
  pose proof (proj1 (Forall_forall _ _) Hrange i Hi) as Hi0. simpl in Hi0.
  apply list_elem_of_In in Hi. specialize (Hj i Hi).
  apply negb_true_iff in Hj. destruct (Z.ltb_spec i iters); [done|lia].
Qed.

Lemma shared_after_join (threads : Z) (sched : list nat) (s : bench) :
  0 <= threads -> threads * iters < size_t_modulus ->
  interleave iters sched (start threads) = Some s ->
  joined iters s = true ->
  shared s = threads * iters.
Proof.
  intros Hthreads Hbound Hrun Hjoin.
  destruct (shared_interleave_inv sched (start threads) s)
    as (Hsh & Hrange & Hlen).
  - simpl. rewrite length_replicate. lia.
  - simpl. by induction (Z.to_nat threads).
  - simpl. apply Forall_replicate. lia.
  - done.
  - simpl in Hlen. rewrite length_replicate in Hlen.
    rewrite Hsh, sum_Z_all_done by (by apply shared_joined_all_done). lia.
Qed.

(** The shared counter follows every execution of the sharded one. *)
Lemma shared_follows_sharded (sched : list nat) :
  forall (c c' : Counters.bench) (sh : Z),
    Counters.interleave iters sched c = Some c' ->
    exists sh',
      interleave iters sched {| shared := sh; loop_i := Counters.loop_i c |}
        = Some {| shared := sh'; loop_i := Counters.loop_i c' |}.
Proof.
  induction sched as [|t sched IH]; intros c c' sh Hrun; simpl in Hrun.
  - injection Hrun as <-. by exists sh.
  - destruct (Counters.iterate iters t c) as [c1|] eqn:Hit; [|done].
    simpl in Hrun. unfold Counters.iterate in Hit.
    destruct (Counters.loop_i c !! t) as [i|] eqn:Hi; [|done]. simpl in Hit.
    destruct (Counters.shards c !! t) as [pc|]; [|done]. simpl in Hit.
    destruct (i <? iters) eqn:Hlt; [|done]. injection Hit as <-.
    destruct (IH _ c' (wrap (sh + 1)) Hrun) as (sh' & Hrest).
    exists sh'. simpl. unfold iterate. simpl. rewrite Hi. simpl.
    rewrite Hlt. simpl. exact Hrest.
Qed.

Lemma shared_can_join (threads : Z) :
  exists s,
    interleave iters (Counters.one_after_another threads iters)
      (start threads) = Some s /\
    joined iters s = true.
Proof.
  destruct (one_after_another_joins iters Hiters threads) as (c & Hrun & Hj).
  destruct (shared_follows_sharded _ _ _ 0 Hrun) as (sh & Hsh).
  eexists. split; [exact Hsh|]. exact Hj.
Qed.

End SharedCounter.

(** X12: After every execution of [BM_SharedAtomicCounter]'s threads in which
    all of them have left their loops, [shared] is the number of threads
    times the iteration count (no increment is lost), and such an execution
    exists. *)
Theorem shared_counter_total (threads iters : Z) :
  0 <= threads -> 0 <= iters < size_t_modulus ->
  threads * iters < size_t_modulus ->
  (exists sched s,
     SharedCounter.interleave iters sched (SharedCounter.start threads)
       = Some s /\
     SharedCounter.joined iters s = true) /\
  (forall sched s,
     SharedCounter.interleave iters sched (SharedCounter.start threads)
       = Some s ->
     SharedCounter.joined iters s = true ->
     SharedCounter.shared s = threads * iters).
Proof.
  intros Hthreads Hiters Hbound. split.
  - exists (Counters.one_after_another threads iters).
    by apply shared_can_join.
  - intros sched s. by apply shared_after_join.
Qed.

Lemma iters_per_thread_bounds (threads : Z) :
  1 <= threads ->
  0 <= Counters.iters_per_thread threads <= Counters.total_increments /\
  threads * Counters.iters_per_thread threads =
    Counters.total_increments - Counters.total_increments mod threads.
Proof.
  intros Hthreads. unfold Counters.iters_per_thread.
  assert (0 <= Counters.total_increments) by done.
  pose proof (Z.div_mod Counters.total_increments threads ltac:(lia)).
  pose proof (Z.mod_pos_bound Counters.total_increments threads ltac:(lia)).
  pose proof (Z.div_pos Counters.total_increments threads ltac:(lia) ltac:(lia)).
  split; [|lia]. split; [lia|].
  apply Z.div_le_upper_bound; nia.
Qed.

(** X13: With the benchmarks' own iteration count [64M / threads], the sharded
    reduction and the shared atomic counter end at the same total,
    [64M - 64M mod threads]: the full 64M exactly when [threads] divides it,
    as for the registered 2, 4 and 8 threads. *)
Theorem benchmark_totals_agree (threads : Z) (sched1 sched2 : list nat)
    (s1 : Counters.bench) (s2 : SharedCounter.bench) :
  1 <= threads < 2 ^ 31 ->
  Counters.interleave (Counters.iters_per_thread threads) sched1
    (Counters.start threads) = Some s1 ->
  Counters.joined (Counters.iters_per_thread threads) s1 = true ->
  SharedCounter.interleave (Counters.iters_per_thread threads) sched2
    (SharedCounter.start threads) = Some s2 ->
  SharedCounter.joined (Counters.iters_per_thread threads) s2 = true ->
  Counters.reduce (Counters.shards s1) = SharedCounter.shared s2 /\
  SharedCounter.shared s2 =
    Counters.total_increments - Counters.total_increments mod threads /\
  (SharedCounter.shared s2 = Counters.total_increments <->
   (threads | Counters.total_increments)).
Proof.
  intros Hthreads Hrun1 Hj1 Hrun2 Hj2.
  destruct (iters_per_thread_bounds threads ltac:(lia)) as (Hk & Hprod).
  assert (Htot : Counters.total_increments = 67108864) by reflexivity.
  assert (Hmod : 0 <= Counters.total_increments mod threads < threads)
    by (apply Z.mod_pos_bound; lia).
  assert (Hiters : 0 <= Counters.iters_per_thread threads < size_t_modulus)
    by (rewrite size_t_modulus_eq; lia).
  assert (Hbound : threads * Counters.iters_per_thread threads < size_t_modulus)
    by (rewrite size_t_modulus_eq; lia).
  rewrite (reduce_after_join _ Hiters threads sched1 s1) by (done || lia).
  rewrite (shared_after_join _ Hiters threads sched2 s2) by (done || lia).
  split; [done|]. split; [done|].
  rewrite Hprod. split.
  - intros Heq. apply Z.mod_divide; lia.
  - intros Hdiv. apply Z.mod_divide in Hdiv; lia.
Qed.

(** * Producer and consumer threads on one ring *)

Lemma checksum_of_succ (i : Z) :
  0 <= i -> checksum_of (i + 1) = wrap (checksum_of i + uint32 i).
Proof.
  intros Hi. unfold checksum_of.
  rewrite seqZ_app by lia. rewrite fold_left_app.
  rewrite (seqZ_cons (0 + i) 1) by lia. rewrite (seqZ_nil _ (Z.pred 1)) by lia.
  simpl. by rewrite Z.add_0_l.
Qed.

Lemma in_flight_nil (i : Z) : in_flight i i = [].
Proof. unfold in_flight. by rewrite Z.sub_diag. Qed.

Lemma in_flight_push (received sent : Z) :
  0 <= received <= sent ->
  in_flight received (sent + 1) = in_flight received sent ++ [uint32 sent].
Proof.
  intros H. unfold in_flight.
  replace (sent + 1 - received) with (sent - received + 1) by lia.
  rewrite seqZ_app by lia. rewrite fmap_app.
  rewrite (seqZ_cons _ 1) by lia. rewrite (seqZ_nil _ (Z.pred 1)) by lia.
  by replace (received + (sent - received)) with sent by lia.
Qed.

Lemma in_flight_pop (received sent : Z) :
  received < sent ->
  in_flight received sent =
    uint32 received :: in_flight (received + 1) sent.
Proof.
  intros H. unfold in_flight.
  rewrite seqZ_cons by lia. simpl. unfold in_flight.
  by replace (sent - (received + 1)) with (Z.pred (sent - received)) by lia.
Qed.

Lemma in_flight_length (received sent : Z) :
  received <= sent ->
  Z.of_nat (length (in_flight received sent)) = sent - received.
Proof.
  intros H. unfold in_flight. rewrite length_fmap, length_seqZ. lia.
Qed.

Lemma returned_or_running (pos : position) :
  pos = Returned \/ pos <> Returned.
Proof. destruct pos; [by right|by right|by left]. Qed.

Lemma next_call_running (count i : Z) (pos : position) :
  pos <> Returned -> i < count -> exists k, next_call count i pos = Some k.
Proof.
  intros Hpos Hi. destruct pos as [|k|]; simpl; [| |done].
  - destruct (Z.ltb_spec i count); [eauto|lia].
  - destruct (Z.ltb_spec i count); [|lia].
    destruct (k <? 8); simpl; eauto.
Qed.

Lemma next_call_done (count i : Z) (pos : position) :
  count <= i -> next_call count i pos = None.
Proof.
  intros Hi. destruct pos as [|k|]; simpl; [| |done].
  - destruct (Z.ltb_spec i count); [lia|done].
  - destruct (Z.ltb_spec i count); [lia|]. by rewrite andb_false_r.
Qed.

(** Closes an instance of [system_inv] whose parts are at hand. *)
Ltac inv_done :=
  split; [lia|]; split; [lia|]; split; [eassumption|];
  split; [first [done | eassumption | reflexivity]|];
  split; [first [done | eassumption | intros; lia]|];
  first [done | eassumption | intros; split; [lia | done]].

Section Threads.
Variable CapacityPow2 : Z.
Hypothesis Hcap : 0 < CapacityPow2 < size_t_modulus.
Hypothesis Hassert : static_assert_pow2 CapacityPow2 = true.
Variable count : Z.
Hypothesis Hcount : 0 <= count < size_t_modulus.

Lemma start_system_inv : system_inv CapacityPow2 count (start_system CapacityPow2).
Proof.
  unfold system_inv, start_system. simpl.
  split; [lia|]. split; [lia|]. split.
  - rewrite in_flight_nil. by apply holds_fresh.
  - split; [done|]. by split.
Qed.

Lemma in_flight_full (r : SpscRing Z) (received sent : Z) :
  received <= sent ->
  holds CapacityPow2 r (in_flight received sent) ->
  sent - received <= CapacityPow2 - 1 /\
  ((head r + 1) mod CapacityPow2 = tail r <->
   sent - received = CapacityPow2 - 1).
Proof.
  intros Hle Hq.
  pose proof (holds_length CapacityPow2 Hcap r _ Hq) as Hbound.
  pose proof (holds_full_iff CapacityPow2 r _ Hq) as Hfull.
  rewrite in_flight_length in Hbound, Hfull by done. by split.
Qed.

(** One step of the producer, case by case. *)
Lemma producer_step_cases (s : system) :
  system_inv CapacityPow2 count s ->
  exists s',
    system_step CapacityPow2 count Producer s = Ok s' /\
    system_inv CapacityPow2 count s' /\
    sys_consumer s' = sys_consumer s /\
    (p_at (sys_producer s) = Returned -> s' = s) /\
    (p_at (sys_producer s) <> Returned ->
     count <= p_i (sys_producer s) ->
     p_i (sys_producer s') = p_i (sys_producer s) /\
     p_at (sys_producer s') = Returned) /\
    (p_at (sys_producer s) <> Returned ->
     p_i (sys_producer s) < count ->
     p_at (sys_producer s') <> Returned /\
     p_i (sys_producer s') =
       if p_i (sys_producer s) - c_i (sys_consumer s) =? CapacityPow2 - 1
       then p_i (sys_producer s) else p_i (sys_producer s) + 1).
Proof.
  destruct s as [r [pi ppos] [ci csum cval cpos] chk].
  unfold system_inv. simpl.
  intros (Hci & Hpi & Hq & Hsum & Hpret & Hcret).
  unfold producer_step. simpl.
  destruct (returned_or_running ppos) as [->|Hrun].
  { simpl. eexists. split; [reflexivity|]. simpl.
    split; [inv_done|]. by repeat split. }
  assert (Hstep : forall o : outcome (producer_state * SpscRing Z),
            match ppos with Returned => Ok ({| p_i := pi; p_at := ppos |}, r)
                          | _ => o end = o) by (by destruct ppos).
  rewrite Hstep.
  destruct (Z.lt_ge_cases pi count) as [Hlt|Hge].
  - destruct (next_call_running count pi ppos Hrun Hlt) as (k & Hk).
    rewrite Hk. pose proof Hq as (Hwf & _).
    destruct (in_flight_full r ci pi ltac:(lia) Hq) as (Hbound & Hfull).
    destruct (try_push_cases CapacityPow2 Hcap Hassert r (uint32 pi) Hwf)
      as [[E Hf]|[E Hroom]];
      pose proof (try_push_holds CapacityPow2 Hcap Hassert r _ _ _ _ Hq E)
        as Hq'; rewrite E; simpl.
    + apply Hfull in Hf.
      eexists. split; [reflexivity|]. simpl.
      split; [inv_done|]. split; [done|]. split; [done|].
      split; [intros; lia|]. intros _ _. split; [done|].
      by rewrite Hf, Z.eqb_refl.
    + assert (pi - ci <> CapacityPow2 - 1) as Hne
        by (intros Heq; by apply Hroom, Hfull).
      eexists. split; [reflexivity|]. simpl.
      rewrite wrap_small by lia.
      rewrite in_flight_push by lia.
      split; [inv_done|]. split; [done|]. split; [done|].
      split; [intros; lia|]. intros _ _. split; [done|].
      by destruct (Z.eqb_spec (pi - ci) (CapacityPow2 - 1)).
  - rewrite next_call_done by lia. simpl.
    eexists. split; [reflexivity|]. simpl.
    split; [inv_done|]. split; [done|]. split; [done|].
    split; [done|]. intros; lia.
Qed.

(** One step of the consumer, case by case. *)
Lemma consumer_step_cases (s : system) :
  system_inv CapacityPow2 count s ->
  exists s',
    system_step CapacityPow2 count Consumer s = Ok s' /\
    system_inv CapacityPow2 count s' /\
    sys_producer s' = sys_producer s /\
    (c_at (sys_consumer s) = Returned -> s' = s) /\
    (c_at (sys_consumer s) <> Returned ->
     count <= c_i (sys_consumer s) ->
     c_i (sys_consumer s') = c_i (sys_consumer s) /\
     c_at (sys_consumer s') = Returned) /\
    (c_at (sys_consumer s) <> Returned ->
     c_i (sys_consumer s) < count ->
     c_at (sys_consumer s') <> Returned /\
     c_i (sys_consumer s') =
       if c_i (sys_consumer s) =? p_i (sys_producer s)
       then c_i (sys_consumer s) else c_i (sys_consumer s) + 1).
Proof.
  destruct s as [r [pi ppos] [ci csum cval cpos] chk].
  unfold system_inv. simpl.
  intros (Hci & Hpi & Hq & Hsum & Hpret & Hcret).
  unfold consumer_step. simpl.
  destruct (returned_or_running cpos) as [->|Hrun].
  { simpl. eexists. split; [reflexivity|]. simpl.
    split; [inv_done|]. by repeat split. }
  assert (Hstep : forall o : outcome (consumer_state * SpscRing Z * Z),
            match cpos with
            | Returned => Ok ({| c_i := ci; c_sum := csum; c_val := cval;
                                 c_at := cpos |}, r, chk)
            | _ => o end = o) by (by destruct cpos).
  rewrite Hstep.
  destruct (Z.lt_ge_cases ci count) as [Hlt|Hge].
  - destruct (next_call_running count ci cpos Hrun Hlt) as (k & Hk).
    rewrite Hk. pose proof Hq as (Hwf & _).
    destruct (try_pop CapacityPow2 r cval) as [[[ok r'] v]|] eqn:E.
    2: { destruct (try_pop_cases CapacityPow2 Hcap Hassert r cval Hwf)
           as [[E' _]|(w & _ & E' & _)]; congruence. }
    pose proof (try_pop_holds CapacityPow2 Hcap Hassert r _ cval _ _ _ Hq E)
      as Hpop.
    simpl. destruct (Z.eqb_spec ci pi) as [->|Hne].
    + rewrite in_flight_nil in Hpop. destruct Hpop as (-> & -> & ->).
      eexists. split; [reflexivity|]. simpl.
      split; [inv_done|]. split; [done|]. split; [done|].
      split; [intros; lia|]. by intros _ _.
    + rewrite in_flight_pop in Hpop by lia.
      destruct Hpop as (-> & -> & Hq').
      eexists. split; [reflexivity|]. simpl.
      rewrite wrap_small by lia.
      rewrite checksum_of_succ by lia. rewrite Hsum.
      split; [inv_done|]. split; [done|]. split; [done|].
      split; [intros; lia|]. by intros _ _.
  - rewrite next_call_done by lia. simpl.
    eexists. split; [reflexivity|]. simpl.
    split; [inv_done|]. split; [done|]. split; [done|].
    split; [done|]. intros; lia.
Qed.

Lemma system_step_inv (t : thread) (s : system) :
  system_inv CapacityPow2 count s ->
  exists s',
    system_step CapacityPow2 count t s = Ok s' /\
    system_inv CapacityPow2 count s'.
Proof.
  intros Hs. destruct t.
  - destruct (producer_step_cases s Hs) as (s' & ? & ? & _). eauto.
  - destruct (consumer_step_cases s Hs) as (s' & ? & ? & _). eauto.
Qed.

Lemma run_threads_inv (sched : list thread) : forall s : system,
  system_inv CapacityPow2 count s ->
  exists s',
    run_threads CapacityPow2 count sched s = Ok s' /\
    system_inv CapacityPow2 count s'.
Proof.
  induction sched as [|t sched IH]; intros s Hs; [by exists s|].
  destruct (system_step_inv t s Hs) as (s1 & Hstep & Hs1).
  destruct (IH s1 Hs1) as (s' & Hrun & Hs').
  exists s'. split; [|done]. simpl. rewrite Hstep. simpl. exact Hrun.
Qed.

Lemma joined_inv (s : system) :
  system_inv CapacityPow2 count s -> both_joined s = true ->
  sys_checksum s = checksum_of count /\
  p_i (sys_producer s) = count /\ c_i (sys_consumer s) = count /\
  tail (sys_ring s) = head (sys_ring s).
Proof.
  intros (Hci & Hpi & Hq & Hsum & Hpret & Hcret) Hj.
  unfold both_joined in Hj. apply andb_true_iff in Hj as [Hp Hc].
  assert (p_at (sys_producer s) = Returned) as Hp'
    by (by destruct (p_at (sys_producer s))).
  assert (c_at (sys_consumer s) = Returned) as Hc'
    by (by destruct (c_at (sys_consumer s))).
  destruct (Hcret Hc') as (Hcc & Hchk). specialize (Hpret Hp').
  rewrite Hchk, Hsum, Hcc. repeat split; [done..|].
  rewrite Hcc, Hpret, in_flight_nil in Hq.
  by apply (holds_empty_iff CapacityPow2 _ [] Hq).
Qed.

Lemma has_returned_true (pos : position) :
  has_returned pos = true <-> pos = Returned.
Proof. by destruct pos. Qed.

Lemma run_threads_app (s1 s2 : list thread) (s : system) :
  run_threads CapacityPow2 count (s1 ++ s2) s =
    s' ← run_threads CapacityPow2 count s1 s;
    run_threads CapacityPow2 count s2 s'.
Proof.
  revert s. induction s1 as [|t s1 IH]; intros s; simpl; [done|].
  destruct (system_step CapacityPow2 count t s); simpl; [apply IH|done].
Qed.

(** From any state of an execution the two threads can run to their
    returns, provided the ring has a usable slot. *)
Lemma finish_from (m : nat) : forall s : system,
  2 <= CapacityPow2 ->
  system_inv CapacityPow2 count s ->
  (steps_left count s <= m)%nat ->
  exists more s',
    run_threads CapacityPow2 count more s = Ok s' /\
    both_joined s' = true.
Proof.
  induction m as [|m IH]; intros s Htwo Hs Hm.
  - exists [], s. split; [done|]. unfold steps_left in Hm.
    unfold both_joined.
    destruct (has_returned (p_at (sys_producer s)));
      destruct (has_returned (c_at (sys_consumer s))); simpl in *; done || lia.
  - pose proof Hs as (Hci & Hpi & Hq & Hsum & Hpret & Hcret).
    assert (Hnext : (exists t s1,
              system_step CapacityPow2 count t s = Ok s1 /\
              system_inv CapacityPow2 count s1 /\
              (steps_left count s1 <= m)%nat) \/
            both_joined s = true).
    { unfold steps_left in *. unfold both_joined.
      destruct (returned_or_running (c_at (sys_consumer s))) as [Hc|Hc].
      - destruct (Hcret Hc) as (Hcc & _).
        destruct (returned_or_running (p_at (sys_producer s))) as [Hp|Hp].
        + right. by rewrite Hp, Hc.
        + left. destruct (producer_step_cases s Hs)
            as (s1 & Hstep & Hs1 & Hcons & _ & Hret & _).
          destruct (Hret Hp ltac:(lia)) as (Hpi1 & Hpat1).
          exists Producer, s1. split; [done|]. split; [done|].
          rewrite Hcons, Hpi1, Hpat1, Hc. simpl.
          destruct (p_at (sys_producer s)); simpl in *; done || lia.
      - left. destruct (consumer_step_cases s Hs)
          as (s1 & Hstep & Hs1 & Hprod & _ & Hret & Hpop).
        destruct (Z.lt_ge_cases (c_i (sys_consumer s)) count) as [Hlt|Hge].
        + destruct (Z.eq_dec (c_i (sys_consumer s)) (p_i (sys_producer s)))
            as [Heq|Hne].
          * clear s1 Hstep Hs1 Hprod Hret Hpop.
            assert (Hp : p_at (sys_producer s) <> Returned)
              by (intros Hp; specialize (Hpret Hp); lia).
            destruct (producer_step_cases s Hs)
              as (s1 & Hstep & Hs1 & Hcons & _ & _ & Hpush).
            destruct (Hpush Hp ltac:(lia)) as (Hpat1 & Hpi1).
            destruct (Z.eqb_spec (p_i (sys_producer s) - c_i (sys_consumer s))
                        (CapacityPow2 - 1)); [lia|].
            exists Producer, s1. split; [done|]. split; [done|].
            rewrite Hcons, Hpi1.
            destruct (p_at (sys_producer s)), (p_at (sys_producer s1));
              simpl in *; done || lia.
          * destruct (Hpop Hc Hlt) as (Hcat1 & Hci1).
            destruct (Z.eqb_spec (c_i (sys_consumer s)) (p_i (sys_producer s)));
              [done|].
            exists Consumer, s1. split; [done|]. split; [done|].
            rewrite Hprod, Hci1.
            destruct (c_at (sys_consumer s)), (c_at (sys_consumer s1));
              simpl in *; done || lia.
        + destruct (Hret Hc Hge) as (Hci1 & Hcat1).
          exists Consumer, s1. split; [done|]. split; [done|].
          rewrite Hprod, Hci1, Hcat1.
          destruct (c_at (sys_consumer s)); simpl in *; done || lia. }
    destruct Hnext as [(t & s1 & Hstep & Hs1 & Hm1)|Hdone].
    + destruct (IH s1 Htwo Hs1 Hm1) as (more & s' & Hrun & Hj).
      exists (t :: more), s'. split; [|done].
      simpl. rewrite Hstep. simpl. exact Hrun.
    + exists [], s. by split.
Qed.

(** X14: Whatever the interleaving of the two threads' calls, the execution is
    defined, and once both threads have returned the consumer has written
    the sum of [static_cast<uint32_t>(i)] for [i < count] to [*checksum]:
    every value was sent once, received once and in order, and the ring is
    empty again. *)
Theorem consumer_checksum (sched : list thread) :
  exists s,
    run_threads CapacityPow2 count sched (start_system CapacityPow2) = Ok s /\
    (both_joined s = true ->
     sys_checksum s = checksum_of count /\
     p_i (sys_producer s) = count /\ c_i (sys_consumer s) = count /\
     tail (sys_ring s) = head (sys_ring s)).
Proof.
  destruct (run_threads_inv sched _ start_system_inv) as (s & Hrun & Hs).
  exists s. split; [done|]. by apply joined_inv.
Qed.

(** X15: Back-pressure: at every point of every execution the producer is at
    most [Capacity - 1] values ahead of the consumer and never behind it,
    the ring holds exactly the values sent and not yet received, in order,
    and the consumer's running sum covers exactly the values received. *)
Theorem producer_never_overruns (sched : list thread) :
  exists s,
    run_threads CapacityPow2 count sched (start_system CapacityPow2) = Ok s /\
    0 <= c_i (sys_consumer s) <= p_i (sys_producer s) /\
    p_i (sys_producer s) <= count /\
    p_i (sys_producer s) - c_i (sys_consumer s) <= CapacityPow2 - 1 /\
    holds CapacityPow2 (sys_ring s)
      (in_flight (c_i (sys_consumer s)) (p_i (sys_producer s))) /\
    c_sum (sys_consumer s) = checksum_of (c_i (sys_consumer s)).
Proof.
  destruct (run_threads_inv sched _ start_system_inv) as (s & Hrun & Hs).
  exists s. split; [done|].
  destruct Hs as (Hci & Hpi & Hq & Hsum & _).
  destruct (in_flight_full _ _ _ (proj2 Hci) Hq) as (Hbound & _).
  split; [done|]. split; [done|]. split; [done|]. by split.
Qed.

(** X16: No deadlock: with at least two slots, every execution prefix can be
    continued to one in which both threads have returned. *)
Theorem threads_can_finish (sched : list thread) :
  2 <= CapacityPow2 ->
  exists more s,
    run_threads CapacityPow2 count (sched ++ more)
      (start_system CapacityPow2) = Ok s /\
    both_joined s = true.
Proof.
  intros Htwo.
  destruct (run_threads_inv sched _ start_system_inv) as (s1 & Hrun & Hs1).
  destruct (finish_from _ s1 Htwo Hs1 (Nat.le_refl _)) as (more & s & Hmore & Hj).
  exists more, s. split; [|done].
  rewrite run_threads_app, Hrun. exact Hmore.
Qed.

End Threads.



Lemma checksum_of_doubled (n : nat) :
  Z.of_nat n <= 2 ^ 32 ->
  2 * checksum_of (Z.of_nat n) = Z.of_nat n * (Z.of_nat n - 1).
Proof.
  induction n as [|n IH]; intros Hn; [done|].
  rewrite Nat2Z.inj_succ, <- Z.add_1_r.
  rewrite checksum_of_succ by lia.
  specialize (IH ltac:(lia)).
  unfold uint32. rewrite (Z.mod_small (Z.of_nat n)) by lia.
  rewrite wrap_small; [lia|].
  rewrite size_t_modulus_eq. nia.
Qed.

Lemma checksum_of_gauss (count : Z) :
  0 <= count <= 2 ^ 32 ->
  checksum_of count = count * (count - 1) / 2.
Proof.
  intros Hcount.
  pose proof (checksum_of_doubled (Z.to_nat count)) as Hdbl.
  rewrite Z2Nat.id in Hdbl by lia. rewrite <- Hdbl by lia.
  by rewrite Z.mul_comm, Z.div_mul.
Qed.


(** * Tiled AXPY kernels *)

Section AxpyProperties.
Context {T : Type}.
Variable mul_add : T -> T -> T -> T.
Variables a b x : list T.
Variable n : Z.
Hypothesis Hn : 0 <= n.
Hypothesis Ha : n <= Z.of_nat (length a).
Hypothesis Hb : n <= Z.of_nat (length b).
Hypothesis Hx : n <= Z.of_nat (length x).

Lemma axpy_reference_length (i : nat) :
  Z.of_nat i <= n ->
  length (axpy_reference mul_add a b x i) = length x.
Proof.
  intros Hi. unfold axpy_reference.
  rewrite length_app, length_zip_with, length_zip_with, !length_take,
    length_drop.
  lia.
Qed.

Lemma axpy_reference_done (i j : nat) (ai xi bi : T) :
  (j < i)%nat -> a !! j = Some ai -> x !! j = Some xi -> b !! j = Some bi ->
  axpy_reference mul_add a b x i !! j = Some (mul_add ai xi bi).
Proof.
  intros Hj Haj Hxj Hbj. unfold axpy_reference.
  apply lookup_lt_Some in Haj as Hla. apply lookup_lt_Some in Hxj as Hlx.
  apply lookup_lt_Some in Hbj as Hlb.
  rewrite lookup_app_l
    by (rewrite length_zip_with, length_zip_with, !length_take; lia).
  rewrite !lookup_zip_with.
  rewrite !lookup_take_lt by done.
  by rewrite Haj, Hbj, Hxj.
Qed.

Lemma axpy_reference_pending (i j : nat) :
  (i <= j)%nat -> Z.of_nat i <= n ->
  axpy_reference mul_add a b x i !! j = x !! j.
Proof.
  intros Hj Hi. unfold axpy_reference.
  rewrite lookup_app_r
    by (rewrite length_zip_with, length_zip_with, !length_take; lia).
  rewrite length_zip_with, length_zip_with, !length_take.
  rewrite lookup_drop. f_equal. lia.
Qed.

Lemma axpy_at_step (i : Z) :
  0 <= i < n ->
  axpy_at mul_add a b (axpy_reference mul_add a b x (Z.to_nat i)) i =
    Ok (axpy_reference mul_add a b x (Z.to_nat (i + 1))).
Proof.
  intros Hi. unfold axpy_at.
  destruct (lookup_lt_is_Some_2 a (Z.to_nat i)) as [ai Hai]; [lia|].
  destruct (lookup_lt_is_Some_2 b (Z.to_nat i)) as [bi Hbi]; [lia|].
  destruct (lookup_lt_is_Some_2 x (Z.to_nat i)) as [xi Hxi]; [lia|].
  unfold load, store. destruct (Z.ltb_spec i 0); [lia|].
  rewrite Hai, Hbi. simpl.
  rewrite axpy_reference_pending by lia. rewrite Hxi. simpl.
  f_equal. apply list_eq. intros j.
  destruct (decide (j = Z.to_nat i)) as [->|Hne].
  - rewrite list_lookup_insert_eq by (rewrite axpy_reference_length; lia).
    symmetry. apply axpy_reference_done; [lia|done..].
  - rewrite list_lookup_insert_ne by done.
    destruct (decide (j < Z.to_nat i)%nat) as [Hlt|Hge].
    + destruct (lookup_lt_is_Some_2 a j) as [aj Haj]; [lia|].
      destruct (lookup_lt_is_Some_2 b j) as [bj Hbj]; [lia|].
      destruct (lookup_lt_is_Some_2 x j) as [xj Hxj]; [lia|].
      by rewrite !(axpy_reference_done _ j aj xj bj) by (done || lia).
    + by rewrite !axpy_reference_pending by lia.
Qed.

Lemma tile_body_spec (tile i : Z) (fuel : nat) : forall k : Z,
  0 <= i -> 0 <= k <= tile -> i + tile <= n -> i + tile < size_t_modulus ->
  (Z.to_nat (tile - k) <= fuel)%nat ->
  tile_body mul_add fuel a b
    (axpy_reference mul_add a b x (Z.to_nat (i + k))) i tile k =
    Ok (axpy_reference mul_add a b x (Z.to_nat (i + tile))).
Proof.
  induction fuel as [|fuel IH]; intros k Hi Hk Hfit Hsmall Hfuel.
  - simpl. by replace k with tile by lia.
  - simpl. destruct (Z.ltb_spec k tile) as [Hlt|Hge].
    + rewrite wrap_small by lia. rewrite axpy_at_step by lia. simpl.
      rewrite <- Z.add_assoc. apply IH; lia.
    + by replace k with tile by lia.
Qed.

Lemma full_tiles_spec (tile : Z) (fuel : nat) : forall i : Z,
  0 < tile -> 0 <= i <= n -> n + tile < size_t_modulus ->
  exists i',
    i <= i' <= n /\
    full_tiles mul_add fuel a b
      (axpy_reference mul_add a b x (Z.to_nat i)) n tile i =
      Ok (axpy_reference mul_add a b x (Z.to_nat i'), i').
Proof.
  induction fuel as [|fuel IH]; intros i Htile Hi Hsmall.
  - exists i. split; [lia|done].
  - simpl. rewrite wrap_small by lia.
    destruct (Z.ltb_spec (i + (tile - 1)) n) as [Hlt|Hge].
    + pose proof (tile_body_spec tile i (Z.to_nat tile) 0) as Hbody.
      rewrite Z.add_0_r in Hbody. rewrite Hbody by lia. simpl.
      rewrite wrap_small by lia.
      destruct (IH (i + tile)) as (i' & Hi' & Hrun); [lia..|].
      exists i'. split; [lia|done].
    + exists i. split; [lia|done].
Qed.

Lemma tail_elements_spec (fuel : nat) : forall i : Z,
  0 <= i <= n -> n < size_t_modulus -> (Z.to_nat (n - i) <= fuel)%nat ->
  tail_elements mul_add fuel a b
    (axpy_reference mul_add a b x (Z.to_nat i)) n i =
    Ok (axpy_reference mul_add a b x (Z.to_nat n)).
Proof.
  induction fuel as [|fuel IH]; intros i Hi Hsmall Hfuel.
  - simpl. by replace i with n by lia.
  - simpl. destruct (Z.ltb_spec i n) as [Hlt|Hge].
    + rewrite axpy_at_step by lia. simpl. rewrite wrap_small by lia.
      apply IH; lia.
    + by replace i with n by lia.
Qed.

Lemma axpy_loops_spec (tile : Z) :
  0 < tile -> n + tile < size_t_modulus ->
  axpy_loops mul_add a b x n tile =
    Ok (axpy_reference mul_add a b x (Z.to_nat n)).
Proof.
  intros Htile Hsmall. unfold axpy_loops.
  assert (Hstart : x = axpy_reference mul_add a b x (Z.to_nat 0))
    by (unfold axpy_reference; simpl; by rewrite drop_0).
  rewrite Hstart at 1.
  destruct (full_tiles_spec tile (Z.to_nat n) 0) as (i' & Hi' & ->);
    [lia..|].
  simpl. apply tail_elements_spec; lia.
Qed.

(** X19: [axpy_tile<TILE>] replaces each of the first [n] elements of [x] by
    [a[i] * x[i] + b[i]], once, and leaves the others alone, whatever the
    tile size and whether or not it divides [n]. *)
Theorem axpy_tile_correct (TILE : Z) :
  0 < TILE -> n + TILE < size_t_modulus ->
  axpy_tile mul_add TILE a b x n =
    Ok (axpy_reference mul_add a b x (Z.to_nat n)).
Proof. apply axpy_loops_spec. Qed.

(** X20: The runtime-dispatched kernel and the compile-time-dispatched kernel
    compute the same array for every [tile] and every [wanted_tile], also
    for a [tile] of zero or less (taken as 1) and for a [wanted_tile] other
    than 8, 16 or 32 (taken as 8). *)
Theorem axpy_dispatch_agrees (tile wanted_tile : Z) :
  tile < 2 ^ 31 -> n + 2 ^ 31 < size_t_modulus ->
  axpy_runtime_tile mul_add a b x n tile =
    Ok (axpy_reference mul_add a b x (Z.to_nat n)) /\
  axpy_compile_time_dispatch mul_add a b x n wanted_tile =
    axpy_runtime_tile mul_add a b x n tile.
Proof.
  intros Htile Hsmall.
  assert (Hrun : axpy_runtime_tile mul_add a b x n tile =
                 Ok (axpy_reference mul_add a b x (Z.to_nat n))).
  { unfold axpy_runtime_tile.
    destruct (Z.leb_spec tile 0); apply axpy_loops_spec; lia. }
  split; [done|]. rewrite Hrun. unfold axpy_compile_time_dispatch, axpy_tile.
  repeat match goal with |- context [?u =? ?v] => destruct (u =? v) end;
    apply axpy_loops_spec; lia.
Qed.

End AxpyProperties.

(** * Instances of the further properties *)

Lemma two_queued :
  holds 4 {| head := 2; tail := 0; buf := [5; 6; 0; 0] |} [5; 6].
Proof.
  split; [unfold wf; simpl; lia|]. split; [reflexivity|].
  intros [|[|i]] v Hv; simpl in Hv; try done; by injection Hv as <-.
Qed.

Lemma five_in_range : 0 <= 5 < size_t_modulus.
Proof. split; [lia | reflexivity]. Defined.

Lemma three_in_range : 0 <= 3 < size_t_modulus.
Proof. split; [lia | reflexivity]. Defined.

Lemma reachable_calls_defined_witness :
  (exists ok r', try_push 4 (fresh 4 0) 7 = Ok (ok, r')) /\
  (exists ok r' v, try_pop 4 (fresh 4 0) 0 = Ok (ok, r', v)) /\
  (exists k r', push_many 4 (fresh 4 0) [1; 2; 3; 4; 5] 5 = Ok (k, r')) /\
  (exists k r' xs',
     pop_many 4 (fresh 4 0) [1; 2; 3; 4; 5] 5 = Ok (k, r', xs')).
Proof.
  apply (reachable_calls_defined 4 capacity_4_in_range capacity_4_passes
           0 (fresh 4 0) 7 0 [1; 2; 3; 4; 5] 5 (reach_fresh 4 0)
           five_in_range).
  simpl. lia.
Defined.

Lemma accepted_is_delivered_then_stored_witness :
  exists es r q,
    run 4 (fresh 4 0) spec_scenario = Ok (es, r) /\
    pushed_values es = popped_values es ++ q /\
    holds 4 r q.
Proof.
  apply (accepted_is_delivered_then_stored 4 capacity_4_in_range
           capacity_4_passes 0 spec_scenario).
Defined.

Lemma push_many_fills_free_slots_witness :
  exists r',
    push_many 4 {| head := 2; tail := 0; buf := [5; 6; 0; 0] |}
      [1; 2; 3; 4; 5] 5 = Ok (1, r') /\
    holds 4 r' [5; 6; 1].
Proof.
  apply (push_many_fills_free_slots 4 capacity_4_in_range capacity_4_passes
           _ [5; 6] [1; 2; 3; 4; 5] 5 two_queued five_in_range).
  simpl. lia.
Defined.

Lemma pop_many_drains_queue_witness :
  exists r',
    pop_many 4 {| head := 2; tail := 0; buf := [5; 6; 0; 0] |}
      [0; 0; 0; 0; 0] 5 = Ok (2, r', [5; 6; 0; 0; 0]) /\
    holds 4 r' [].
Proof.
  apply (pop_many_drains_queue 4 capacity_4_in_range capacity_4_passes
           _ [5; 6] [0; 0; 0; 0; 0] 5 two_queued five_in_range).
  simpl. lia.
Defined.

Lemma push_many_pop_many_round_trip_witness :
  exists r1 r2,
    push_many 4 (fresh 4 0) [1; 2; 3; 4; 5] 5 = Ok (3, r1) /\
    pop_many 4 r1 [0; 0; 0; 0; 0] 5 = Ok (3, r2, [1; 2; 3; 0; 0]) /\
    tail r2 = head r2.
Proof.
  apply (push_many_pop_many_round_trip 4 capacity_4_in_range
           capacity_4_passes (fresh 4 0) [1; 2; 3; 4; 5] [0; 0; 0; 0; 0] 5
           wf_4_fresh eq_refl five_in_range); simpl; lia.
Defined.

Lemma try_push_try_pop_round_trip_witness :
  exists r1 r2,
    try_push 4 (fresh 4 0) 7 = Ok (true, r1) /\
    try_pop 4 r1 0 = Ok (true, r2, 7) /\
    tail r2 = head r2.
Proof.
  apply (try_push_try_pop_round_trip 4 capacity_4_in_range capacity_4_passes
           (fresh 4 0) 7 0 ltac:(lia) wf_4_fresh eq_refl).
Defined.

Lemma push_or_pop_succeeds_witness :
  (exists r', try_push 4 (fresh 4 0) 7 = Ok (true, r')) \/
  (exists r' v, try_pop 4 (fresh 4 0) 0 = Ok (true, r', v)).
Proof.
  apply (push_or_pop_succeeds 4 capacity_4_in_range capacity_4_passes
           (fresh 4 0) 7 0 ltac:(lia) wf_4_fresh).
Defined.

Lemma success_enables_other_side_witness :
  exists r'' w,
    try_pop 4 {| head := 1; tail := 0; buf := [7; 0; 0; 0] |} 0 =
      Ok (true, r'', w).
Proof.
  apply (proj2 (success_enables_other_side 4 capacity_4_in_range
                  capacity_4_passes (fresh 4 0)
                  {| head := 1; tail := 0; buf := [7; 0; 0; 0] |} 7 0 0
                  wf_4_fresh)).
  reflexivity.
Defined.

Lemma zero_in_range : 0 <= 0 < size_t_modulus.
Proof. split; [lia | reflexivity]. Defined.

Lemma static_assert_accepts_witness : static_assert_pow2 0 = true.
Proof.
  apply (proj2 (static_assert_accepts 0 zero_in_range)). by left.
Defined.

Lemma one_in_range : 0 <= 1 < size_t_modulus.
Proof. split; [lia | reflexivity]. Defined.

Lemma two_below_modulus : 2 * 1 < size_t_modulus.
Proof. reflexivity. Defined.

Lemma shared_counter_total_witness :
  SharedCounter.shared
    {| SharedCounter.shared := 2; SharedCounter.loop_i := [1; 1] |} = 2 * 1.
Proof.
  apply (proj2 (shared_counter_total 2 1 ltac:(lia) one_in_range
                  two_below_modulus) [1%nat; 0%nat]); reflexivity.
Defined.

Lemma two_threads_in_range : 1 <= 2 < 2 ^ 31.
Proof. split; [lia | reflexivity]. Defined.

Lemma benchmark_iters_in_range :
  0 <= Counters.iters_per_thread 2 < size_t_modulus.
Proof. split; [discriminate | reflexivity]. Defined.

Lemma benchmark_totals_agree_witness :
  exists (s1 : Counters.bench) (s2 : SharedCounter.bench),
    Counters.reduce (Counters.shards s1) = SharedCounter.shared s2 /\
    SharedCounter.shared s2 =
      Counters.total_increments - Counters.total_increments mod 2.
Proof.
  destruct (one_after_another_joins (Counters.iters_per_thread 2)
              benchmark_iters_in_range 2) as (s1 & Hrun1 & Hj1).
  destruct (shared_can_join (Counters.iters_per_thread 2)
              benchmark_iters_in_range 2) as (s2 & Hrun2 & Hj2).
  exists s1, s2.
  pose proof (benchmark_totals_agree 2 _ _ s1 s2 two_threads_in_range
                Hrun1 Hj1 Hrun2 Hj2) as (Hsame & Htotal & _).
  exact (conj Hsame Htotal).
Defined.

Lemma consumer_checksum_witness :
  exists s,
    run_threads 4 3 (in_lockstep 3) (start_system 4) = Ok s /\
    both_joined s = true /\
    sys_checksum s = checksum_of 3.
Proof.
  destruct (consumer_checksum 4 capacity_4_in_range capacity_4_passes 3
              three_in_range (in_lockstep 3)) as (s & Hrun & Hsum).
  exists s. split; [exact Hrun|].
  assert (Hj : both_joined s = true).
  { vm_compute in Hrun. injection Hrun as <-. reflexivity. }
  split; [exact Hj | exact (proj1 (Hsum Hj))].
Defined.

Lemma producer_never_overruns_witness :
  exists s,
    run_threads 4 3 [Producer; Producer; Consumer] (start_system 4) = Ok s /\
    0 <= c_i (sys_consumer s) <= p_i (sys_producer s) /\
    p_i (sys_producer s) <= 3 /\
    p_i (sys_producer s) - c_i (sys_consumer s) <= 4 - 1 /\
    holds 4 (sys_ring s)
      (in_flight (c_i (sys_consumer s)) (p_i (sys_producer s))) /\
    c_sum (sys_consumer s) = checksum_of (c_i (sys_consumer s)).
Proof.
  apply (producer_never_overruns 4 capacity_4_in_range capacity_4_passes 3
           three_in_range).
Defined.

Lemma threads_can_finish_witness :
  exists more s,
    run_threads 4 3 ([Producer; Producer] ++ more) (start_system 4) = Ok s /\
    both_joined s = true.
Proof.
  apply (threads_can_finish 4 capacity_4_in_range capacity_4_passes 3
           three_in_range [Producer; Producer]).
  lia.
Defined.





(** The checksums of the two registered runs of the throughput benchmark. *)
Example benchmark_checksums :
  checksum_of 1048576 = 549755289600 /\
  checksum_of 4194304 = 8796090925056.
Proof.
  split; rewrite checksum_of_gauss; try reflexivity; split; discriminate.
Qed.

Lemma axpy_tile_correct_witness :
  axpy_tile (fun a x b => a * x + b) 2 [1; 2; 3] [10; 20; 30] [5; 6; 7] 3 =
    Ok (axpy_reference (fun a x b => a * x + b)
          [1; 2; 3] [10; 20; 30] [5; 6; 7] (Z.to_nat 3)).
Proof.
  apply (axpy_tile_correct (fun a x b => a * x + b)
           [1; 2; 3] [10; 20; 30] [5; 6; 7] 3);
    try (simpl; lia); reflexivity.
Defined.

Lemma axpy_dispatch_agrees_witness :
  axpy_runtime_tile (fun a x b => a * x + b)
    [1; 2; 3] [10; 20; 30] [5; 6; 7] 3 (-4) =
    Ok (axpy_reference (fun a x b => a * x + b)
          [1; 2; 3] [10; 20; 30] [5; 6; 7] (Z.to_nat 3)) /\
  axpy_compile_time_dispatch (fun a x b => a * x + b)
    [1; 2; 3] [10; 20; 30] [5; 6; 7] 3 16 =
    axpy_runtime_tile (fun a x b => a * x + b)
      [1; 2; 3] [10; 20; 30] [5; 6; 7] 3 (-4).
Proof.
  apply (axpy_dispatch_agrees (fun a x b => a * x + b)
           [1; 2; 3] [10; 20; 30] [5; 6; 7] 3);
    try (simpl; lia); reflexivity.
Defined.

(** A tile of 2 over three elements: one full tile and a tail of one. *)
Example axpy_tile_three :
  axpy_tile (fun a x b => a * x + b) 2 [1; 2; 3] [10; 20; 30] [5; 6; 7] 3 =
    Ok [15; 32; 51].
Proof. reflexivity. Qed.
